(** * Spotify DJ API: compatibility filtering and similarity ranking

    A shallow embedding of [SpotifyDJAPI] (spotify_api.py): the tempo, key,
    genre, subgenre and year filters, the similarity score and the query
    [find_compatible_songs].

    Conventions of the embedding.
    - A DataFrame is the list of its rows, in row order; a boolean mask
      [df[mask]] is [filter].
    - The catalog of the engine is the frame left by [_clean_data], with a
      number in every numeric column the engine reads.  Its float columns
      are exact rationals ([Q]) and the Euclidean distance, which needs a
      square root, lives in [R]: this is the engine up to rounding, and the
      properties stated on it are those that rounding leaves alone
      (which rows a filter can only drop, what the switches do, the shape
      of the result).
    - Where the answer depends on rounding, the code is read in IEEE 754
      binary64: module [Binary64] is [_filter_by_bpm] on doubles, with the
      arithmetic of [SpecFloat]; the properties of the band bounds are
      stated there.
    - [year], [key] and [mode] are integers, as is each tolerance.  The
      [year] column is int32; a property that adds the year tolerance
      assumes [year_bounds_fit]: the bounds stay within int32.
    - A missing value (NaN) is [None]: in the derived text columns, in the
      cells [_clean_data] inspects, and in the [year] column
      [get_year_range] reads.
    - [sort_values] belongs to pandas, not to this program: the query takes
      it as an argument, and the properties of the query are proved for
      every function that returns its rows in descending order.
      [numpy_sort_values] is the sort pandas runs by default, [nargsort]
      over NumPy's introsort.

    Beyond the engine the file covers the lookups and listings of the API
    ([get_track_by_id], [get_track_id_from_search], [get_genres],
    [get_subgenres], [get_bpm_range], [get_year_range]), the two
    row-dropping steps of [_clean_data], and the selection and preview
    state of the dashboard (apiexplorer.py, module [Explorer]).  Date
    parsing, the network lookup of previews and the plotting calls are not
    modelled. *)

From Stdlib Require Import Bool List String ZArith QArith Qabs Lia Lqa.
From Stdlib Require Import Reals Lra Qreals Permutation Sorted.
From Stdlib Require Import Qminmax Qround OrderedTypeEx SpecFloat.
From Stdlib Require Import DecimalString FunctionalExtensionality.
Import ListNotations.

Local Open Scope string_scope.

(** ** Data model *)

(** One row of the cleaned data frame (the columns the engine reads). *)
Record Track := mkTrack {
  track_id : string;
  tempo : Q;
  key : Z;
  mode : Z;
  year : Z;
  playlist_genre : string;
  playlist_subgenre : string;
  danceability : Q;
  energy : Q;
  valence : Q;
  acousticness : Q;
  instrumentalness : Q;
  speechiness : Q;
  liveness : Q
}.

(** The keyword arguments of [find_compatible_songs]. *)
Record Config := mkConfig {
  bpm_tolerance : Z;
  include_double_half : bool;
  match_key : bool;
  include_relative : bool;
  match_genre : bool;
  match_subgenre : bool;
  year_tolerance : Z
}.

(** [find_compatible_songs]'s defaults. *)
Definition default_config : Config :=
  mkConfig 5 false true false false false 10.

(** A row of the returned frame: the track with the two added columns. *)
Record Scored := mkScored {
  row : Track;
  distance : R;
  similarity : R
}.

(** ** Derived key columns ([_clean_data]) *)

(** [key_map]: pitch class to note name; a key outside the dict maps to NaN. *)
Definition key_map (k : Z) : option string :=
  match k with
  | 0%Z => Some "C" | 1%Z => Some "C#" | 2%Z => Some "D" | 3%Z => Some "D#"
  | 4%Z => Some "E" | 5%Z => Some "F" | 6%Z => Some "F#" | 7%Z => Some "G"
  | 8%Z => Some "G#" | 9%Z => Some "A" | 10%Z => Some "A#" | 11%Z => Some "B"
  | _ => None
  end.

(** [{0: 'Minor', 1: 'Major'}]. *)
Definition mode_name (m : Z) : option string :=
  match m with
  | 0%Z => Some "Minor"
  | 1%Z => Some "Major"
  | _ => None
  end.

(** [key_name + ' ' + mode_name]; NaN as soon as one side is NaN. *)
Definition key_label (k m : Z) : option string :=
  match key_map k, mode_name m with
  | Some kn, Some mn => Some (kn ++ " " ++ mn)
  | _, _ => None
  end.

(** The [full_key] column. *)
Definition full_key (t : Track) : option string :=
  key_label (key t) (mode t).

(** ** Tempo filter *)

(** [(lo <= x) & (x <= hi)] on one cell. *)
Definition between (lo hi x : Q) : bool :=
  Qle_bool lo x && Qle_bool x hi.

(** The six bounds [_filter_by_bpm] computes, as
    (plain, doubled, halved) pairs of (min, max). *)
Definition bpm_bands (ref_tempo : Q) (tol : Z) : (Q * Q) * (Q * Q) * (Q * Q) :=
  let bpm_min := (ref_tempo - inject_Z tol)%Q in
  let bpm_max := (ref_tempo + inject_Z tol)%Q in
  let double_min := (2 * bpm_min)%Q in
  let double_max := (2 * bpm_max)%Q in
  let half_min := (bpm_min / 2)%Q in
  let half_max := (bpm_max / 2)%Q in
  ((bpm_min, bpm_max), (double_min, double_max), (half_min, half_max)).

Definition _filter_by_bpm (df : list Track) (reference_song : Track)
    (tol : Z) (double_half : bool) : list Track :=
  let '((bpm_min, bpm_max), (double_min, double_max), (half_min, half_max)) :=
    bpm_bands (tempo reference_song) tol in
  if double_half then
    filter (fun t =>
              between bpm_min bpm_max (tempo t)
              || between double_min double_max (tempo t)
              || between half_min half_max (tempo t)) df
  else
    filter (fun t => between bpm_min bpm_max (tempo t)) df.

(** ** Key filter *)

(** The relative key of the reference: pitch class and the mode its label
    names (0 = Minor, 1 = Major).  Any mode other than 1 takes the minor
    branch, as the [else] of the source does. *)
Definition relative_key (ref_key_num ref_mode : Z) : Z * Z :=
  if (ref_mode =? 1)%Z then ((ref_key_num + 9) mod 12, 0)%Z
  else ((ref_key_num + 3) mod 12, 1)%Z.

Definition option_string_eqb (a b : option string) : bool :=
  match a, b with
  | Some x, Some y => String.eqb x y
  | None, None => true
  | _, _ => false
  end.

(** [Series.isin]: a NaN cell matches a NaN in the list. *)
Definition isin (x : option string) (values : list (option string)) : bool :=
  existsb (option_string_eqb x) values.

Definition allowed_keys (reference_song : Track) (relative : bool)
    : list (option string) :=
  let allowed := [full_key reference_song] in
  if relative then
    let '(relative_key_num, relative_mode) :=
      relative_key (key reference_song) (mode reference_song) in
    allowed ++ [key_label relative_key_num relative_mode]
  else allowed.

Definition _filter_by_key (df : list Track) (reference_song : Track)
    (mkey relative : bool) : list Track :=
  if negb mkey then df
  else filter (fun t => isin (full_key t) (allowed_keys reference_song relative)) df.

(** ** Similarity *)

(** [Series.min()] and [Series.max()]: NaN ([None]) on an empty series. *)
Definition series_min (l : list Z) : option Z :=
  match l with
  | [] => None
  | x :: xs => Some (fold_left Z.min xs x)
  end.

Definition series_max (l : list Z) : option Z :=
  match l with
  | [] => None
  | x :: xs => Some (fold_left Z.max xs x)
  end.

Definition series_Rmax (l : list R) : option R :=
  match l with
  | [] => None
  | x :: xs => Some (fold_left Rmax xs x)
  end.

(** The year normalisation of [_calculate_similarity]: the normalised year
    of each row and of the reference.  [year_range > 0] is false when the
    frame is empty (NaN) and when all years coincide. *)
Definition normalize_year (df : list Track) (reference_song : Track)
    : (Track -> Q) * Q :=
  match series_min (map year df), series_max (map year df) with
  | Some year_min, Some year_max =>
      let year_range := (year_max - year_min)%Z in
      if (year_range >? 0)%Z then
        (fun t => (inject_Z (year t - year_min) / inject_Z year_range)%Q,
         (inject_Z (year reference_song - year_min) / inject_Z year_range)%Q)
      else (fun _ => 0%Q, 0%Q)
  | _, _ => (fun _ => 0%Q, 0%Q)
  end.

Definition audio_features : list (Track -> Q) :=
  [danceability; energy; valence; acousticness;
   instrumentalness; speechiness; liveness].

Definition Qsq (x : Q) : Q := (x * x)%Q.

(** The eight squared differences of one row. *)
Definition squared_diffs (year_normalized : Track -> Q) (ref_year_normalized : Q)
    (reference_song t : Track) : list Q :=
  map (fun feature => Qsq (feature t - feature reference_song)) audio_features
  ++ [Qsq (year_normalized t - ref_year_normalized)].

(** Python's [sum]: a left fold from 0. *)
Definition sum_squared_diffs (year_normalized : Track -> Q) (ref_year_normalized : Q)
    (reference_song t : Track) : Q :=
  fold_left Qplus (squared_diffs year_normalized ref_year_normalized reference_song t) 0%Q.

(** The [distance] column. *)
Definition distances (df : list Track) (reference_song : Track) : list R :=
  let '(year_normalized, ref_year_normalized) := normalize_year df reference_song in
  map (fun t => sqrt (Q2R (sum_squared_diffs year_normalized ref_year_normalized
                             reference_song t))) df.

(** The [similarity] cell for a distance, given [df['distance'].max()]. *)
Definition similarity_of (max_distance : option R) (d : R) : R :=
  match max_distance with
  | Some m => if Rlt_dec 0 m then (1 - d / m)%R else 1%R
  | None => 1%R
  end.

Definition _calculate_similarity (df : list Track) (reference_song : Track)
    : list Scored :=
  let dist := distances df reference_song in
  let max_distance := series_Rmax dist in
  map (fun td => mkScored (fst td) (snd td) (similarity_of max_distance (snd td)))
      (combine df dist).

(** ** Sorting *)

(** Non-increasing in the [similarity] column. *)
Definition descending (l : list Scored) : Prop :=
  StronglySorted (fun a b => (similarity b <= similarity a)%R) l.

(** ** The query *)

(** Lines 253-266: every row but the reference, through the tempo, key,
    genre and subgenre filters. *)
Definition candidates_before_year (self_df : list Track) (reference_track_id : string)
    (reference_song : Track) (cfg : Config) : list Track :=
  let df := filter (fun t => negb (String.eqb (track_id t) reference_track_id)) self_df in
  let df := _filter_by_bpm df reference_song (bpm_tolerance cfg) (include_double_half cfg) in
  let df := _filter_by_key df reference_song (match_key cfg) (include_relative cfg) in
  let df := if match_genre cfg
            then filter (fun t => String.eqb (playlist_genre t)
                                             (playlist_genre reference_song)) df
            else df in
  if match_subgenre cfg
  then filter (fun t => String.eqb (playlist_subgenre t)
                                   (playlist_subgenre reference_song)) df
  else df.

(** Lines 268-271: the year filter, on top of the others. *)
Definition compatible_candidates (self_df : list Track) (reference_track_id : string)
    (reference_song : Track) (cfg : Config) : list Track :=
  let df := candidates_before_year self_df reference_track_id reference_song cfg in
  let year_min := (year reference_song - year_tolerance cfg)%Z in
  let year_max := (year reference_song + year_tolerance cfg)%Z in
  filter (fun t => (year_min <=? year t)%Z && (year t <=? year_max)%Z) df.

(** The query.  [sort_values] stands for pandas'
    [DataFrame.sort_values('similarity', ascending=False)] with its default
    [kind='quicksort'].  [None] is the source's [None]: the reference id is
    not in the frame; [reference_song] is [ref.iloc[0]]. *)
Definition find_compatible_songs (sort_values : list Scored -> list Scored)
    (self_df : list Track) (reference_track_id : string) (cfg : Config)
    : option (list Scored) :=
  match filter (fun t => String.eqb (track_id t) reference_track_id) self_df with
  | [] => None
  | reference_song :: _ =>
      let df := compatible_candidates self_df reference_track_id reference_song cfg in
      let df := _calculate_similarity df reference_song in
      Some (sort_values df)
  end.

(** The track ids of a result; no ids when the reference was not found. *)
Definition result_ids (res : option (list Scored)) : list string :=
  match res with
  | Some rows => map (fun r => track_id (row r)) rows
  | None => []
  end.

(** Rows with equal similarity appear in [res] in the order they have in the
    catalog. *)
Definition keeps_catalog_order (self_df : list Track) (res : list Scored) : Prop :=
  forall (i j : nat) (a b : Scored),
    (i < j)%nat ->
    nth_error res i = Some a ->
    nth_error res j = Some b ->
    similarity a = similarity b ->
    exists i' j' : nat,
      (i' < j')%nat
      /\ nth_error self_df i' = Some (row a)
      /\ nth_error self_df j' = Some (row b).

(** ** A stable descending sort *)

(** Insertion into a descending list, before the first row that is not
    strictly greater: rows with equal keys keep their order. *)
Fixpoint insert_desc (x : Scored) (l : list Scored) : list Scored :=
  match l with
  | [] => [x]
  | y :: ys =>
      if Rlt_dec (similarity x) (similarity y) then y :: insert_desc x ys
      else x :: y :: ys
  end.

Definition insertion_sort_desc (l : list Scored) : list Scored :=
  fold_right insert_desc [] l.

(** ** Sample rows for the worked scenarios *)

(** A row with the given id, tempo and year; C major, pop, all audio
    features at one half. *)
Definition demo_track (id : string) (bpm : Q) (yr : Z) : Track :=
  mkTrack id bpm 0 1 yr "pop" "dance pop"
          (1#2) (1#2) (1#2) (1#2) (1#2) (1#2) (1#2).

(** The reference and two rows that agree with it on every feature. *)
Definition tie_catalog : list Track :=
  [demo_track "ref" 120 2000; demo_track "a" 120 2000; demo_track "b" 120 2000].

(** The reference and one row far outside its tempo band. *)
Definition sparse_catalog : list Track :=
  [demo_track "ref" 120 2000; demo_track "fast" 200 2000].

(** The reference, a row ten years older and a row eleven years older. *)
Definition year_catalog : list Track :=
  [demo_track "ref" 120 2000; demo_track "old" 120 1990;
   demo_track "older" 120 1989].

(** A row that differs from [demo_track] in danceability only. *)
Definition bright_track (id : string) (bpm : Q) (yr : Z) : Track :=
  mkTrack id bpm 0 1 yr "pop" "dance pop"
          1 (1#2) (1#2) (1#2) (1#2) (1#2) (1#2).

(** ** Tempo bands as sets *)

Definition in_band (b : Q * Q) (x : Q) : Prop :=
  (fst b <= x)%Q /\ (x <= snd b)%Q.



(** ** The catalog with its text columns *)

(** A row of the cleaned frame with the two text columns [search_string] is
    built from; a missing name (NaN) is [None]. *)
Record Song := mkSong {
  track : Track;
  track_name : option string;
  track_artist : option string
}.

(** The [search_string] column: [track_name + ' - ' + track_artist], NaN as
    soon as one side is NaN. *)
Definition search_string (s : Song) : option string :=
  match track_name s, track_artist s with
  | Some name, Some artist => Some (name ++ " - " ++ artist)
  | _, _ => None
  end.

Definition get_search_options (df : list Song) : list (option string) :=
  map search_string df.

(** Python truthiness of an optional string: [None] and [''] are false. *)
Definition truthy (s : option string) : bool :=
  match s with
  | None => false
  | Some EmptyString => false
  | Some _ => true
  end.

(** [df['search_string'] == s] on one cell: a NaN cell equals nothing. *)
Definition cell_equals (cell : option string) (s : string) : bool :=
  match cell with
  | Some x => String.eqb x s
  | None => false
  end.

Definition get_track_id_from_search (df : list Song) (query : option string)
    : option string :=
  match query with
  | Some s =>
      if negb (truthy query) then None
      else
        match filter (fun r => cell_equals (search_string r) s) df with
        | [] => None
        | first :: _ => Some (track_id (track first))
        end
  | None => None
  end.

Definition get_track_by_id (df : list Song) (id : string) : option Song :=
  match filter (fun r => String.eqb (track_id (track r)) id) df with
  | [] => None
  | first :: _ => Some first
  end.

(** ** Sorted unique values *)

(** [Series.unique()]: the distinct values in order of first appearance. *)
Fixpoint unique (l : list string) : list string :=
  match l with
  | [] => []
  | x :: xs => x :: filter (fun y => negb (String.eqb x y)) (unique xs)
  end.

(** Python's [sorted] on strings (code-point order), as a stable insertion
    sort. *)
Fixpoint insert_sorted (x : string) (l : list string) : list string :=
  match l with
  | [] => [x]
  | y :: ys => if String.leb x y then x :: y :: ys else y :: insert_sorted x ys
  end.

Definition sorted (l : list string) : list string :=
  fold_right insert_sorted [] l.

(** Strictly before, in code-point order. *)
Definition string_lt (a b : string) : Prop := String.ltb a b = true.

Definition get_genres (df : list Song) : list string :=
  sorted (unique (map (fun r => playlist_genre (track r)) df)).

(** [genre] is the optional argument; [None] and [''] select every row. *)
Definition get_subgenres (df : list Song) (genre : option string) : list string :=
  let df :=
    match genre with
    | Some g =>
        if truthy genre
        then filter (fun r => String.eqb (playlist_genre (track r)) g) df
        else df
    | None => df
    end in
  sorted (unique (map (fun r => playlist_subgenre (track r)) df)).

(** ** Ranges *)

(** Python's [int] on a float: truncation toward zero. *)
Definition py_int (x : Q) : Z := Z.quot (Qnum x) (Zpos (Qden x)).

Definition series_Qmin (l : list Q) : option Q :=
  match l with
  | [] => None
  | x :: xs => Some (fold_left Qmin xs x)
  end.

Definition series_Qmax (l : list Q) : option Q :=
  match l with
  | [] => None
  | x :: xs => Some (fold_left Qmax xs x)
  end.

(** [None] is the [ValueError] that [int(nan)] raises on an empty frame. *)
Definition get_bpm_range (df : list Song) : option (Z * Z) :=
  match series_Qmin (map (fun r => tempo (track r)) df),
        series_Qmax (map (fun r => tempo (track r)) df) with
  | Some lo, Some hi => Some (py_int lo, py_int hi)
  | _, _ => None
  end.

(** The cells of a column that hold a number: [min()] and [max()] skip
    NaN. *)
Definition notna (column : list (option Z)) : list Z :=
  flat_map (fun cell => match cell with
                        | Some y => [y]
                        | None => []
                        end) column.

(** [get_year_range] reads the [year] column of the frame [_clean_data]
    leaves, given here as the list of its cells.  A row whose release date
    did not parse has a NaN year ([None]) and stays in the frame: [dropna]
    does not list [year].  The result [None] is the [ValueError] of
    [int(nan)], raised when no cell holds a year. *)
Definition get_year_range (year_column : list (option Z)) : option (Z * Z) :=
  match series_min (notna year_column), series_max (notna year_column) with
  | Some lo, Some hi => Some (lo, hi)
  | _, _ => None
  end.

(** ** Compatibility as a relation *)

(** What the pipeline of [find_compatible_songs] asks of a row [t], filter
    by filter, for the reference row [r]. *)
Definition tempo_compatible (r : Track) (tol : Z) (double_half : bool) (t : Track)
    : Prop :=
  let lo := (tempo r - inject_Z tol)%Q in
  let hi := (tempo r + inject_Z tol)%Q in
  (lo <= tempo t /\ tempo t <= hi)%Q
  \/ (double_half = true
      /\ ((2 * lo <= tempo t /\ tempo t <= 2 * hi)%Q
          \/ (lo / 2 <= tempo t /\ tempo t <= hi / 2)%Q)).

Definition key_compatible (r : Track) (mkey relative : bool) (t : Track) : Prop :=
  mkey = true ->
  full_key t = full_key r
  \/ (relative = true
      /\ full_key t = key_label (fst (relative_key (key r) (mode r)))
                                (snd (relative_key (key r) (mode r)))).

Definition year_compatible (r : Track) (tol : Z) (t : Track) : Prop :=
  (year r - tol <= year t <= year r + tol)%Z.

Definition compatible (r : Track) (cfg : Config) (t : Track) : Prop :=
  tempo_compatible r (bpm_tolerance cfg) (include_double_half cfg) t
  /\ key_compatible r (match_key cfg) (include_relative cfg) t
  /\ (match_genre cfg = true -> playlist_genre t = playlist_genre r)
  /\ (match_subgenre cfg = true -> playlist_subgenre t = playlist_subgenre r)
  /\ year_compatible r (year_tolerance cfg) t.

(** The rows [_clean_data] leaves have a pitch class and a mode the two
    dicts know. *)
Definition valid_key (t : Track) : Prop :=
  (0 <= key t < 12)%Z /\ (mode t = 0 \/ mode t = 1)%Z.

(** [relaxes cfg cfg']: [cfg'] asks for no more than [cfg] does: tolerances
    no smaller, widening switches not switched off, narrowing switches not
    switched on. *)
Definition relaxes (cfg cfg' : Config) : Prop :=
  (bpm_tolerance cfg <= bpm_tolerance cfg')%Z
  /\ (year_tolerance cfg <= year_tolerance cfg')%Z
  /\ (include_double_half cfg = true -> include_double_half cfg' = true)
  /\ (include_relative cfg = true -> include_relative cfg' = true)
  /\ (match_key cfg' = true -> match_key cfg = true)
  /\ (match_genre cfg' = true -> match_genre cfg = true)
  /\ (match_subgenre cfg' = true -> match_subgenre cfg = true).

(** The [year] column is int32 (it comes from [.dt.year]). *)
Definition int32 (z : Z) : Prop := (-2147483648 <= z <= 2147483647)%Z.

(** The tolerance and the two year bounds of lines 269-270 are int32
    values: neither the difference nor the sum leaves the column's range. *)
Definition year_bounds_fit (reference_song : Track) (cfg : Config) : Prop :=
  int32 (year_tolerance cfg)
  /\ int32 (year reference_song - year_tolerance cfg)
  /\ int32 (year reference_song + year_tolerance cfg).

(** ** Row selection in [_clean_data] *)

(** A row of the CSV as the two row-dropping steps of [_clean_data] read it:
    the id and the three critical cells, each possibly missing.  The other
    steps only add columns ([year], [mode_name], [key_name], [full_key],
    [search_string]) and leave the rows as they are. *)
Record CsvRow := mkCsvRow {
  csv_track_id : string;
  csv_tempo : option Q;
  csv_key : option Z;
  csv_playlist_genre : option string
}.

Definition isna {A : Type} (cell : option A) : bool :=
  match cell with
  | None => true
  | Some _ => false
  end.

(** [dropna(subset=['tempo', 'key', 'playlist_genre'])]. *)
Definition dropna_critical (df : list CsvRow) : list CsvRow :=
  filter (fun r => negb (isna (csv_tempo r) || isna (csv_key r)
                         || isna (csv_playlist_genre r))) df.

(** [drop_duplicates(subset=['track_id'])]: the first row of each id. *)
Fixpoint drop_duplicates (df : list CsvRow) : list CsvRow :=
  match df with
  | [] => []
  | r :: rs =>
      r :: filter (fun r' => negb (String.eqb (csv_track_id r) (csv_track_id r')))
                  (drop_duplicates rs)
  end.

Definition _clean_data (df : list CsvRow) : list CsvRow :=
  drop_duplicates (dropna_critical df).

(** ** The dashboard (apiexplorer.py) *)

Module Explorer.

(** The globals [current_song_index], [track_id], [ref], [filtered_df] and
    what [update_audio_player] writes to the widgets.  [now_playing] is the
    row whose preview the audio player is given ([None]: the player is
    cleared); the preview URL itself comes from the network. *)
Record State := mkState {
  current_song_index : Z;
  selected_track_id : option string;
  selected_ref : option Song;
  filtered_df : option (list Scored);
  now_playing : option Scored;
  prev_disabled : bool;
  next_disabled : bool
}.

(** The start of the script: index 0, nothing selected. *)
Definition initial : State := mkState 0 None None None None false false.

(** Lines 47-56 and 211-220: the search box resolved to an id, the reference
    row and the result frame. *)
Definition select (sort_values : list Scored -> list Scored) (df : list Song)
    (song_search : string) (cfg : Config)
    : option string * option Song * option (list Scored) :=
  let track_id := get_track_id_from_search df (Some song_search) in
  match track_id with
  | Some id =>
      if truthy track_id
      then (track_id, get_track_by_id df id,
            find_compatible_songs sort_values (map track df) id cfg)
      else (track_id, None, None)
  | None => (track_id, None, None)
  end.

Definition len (rows : list Scored) : Z := Z.of_nat (List.length rows).

Definition update_audio_player (sort_values : list Scored -> list Scored)
    (df : list Song) (song_search : string) (cfg : Config) (st : State) : State :=
  let '(track_id, ref, filtered) := select sort_values df song_search cfg in
  match filtered with
  | None =>
      mkState (current_song_index st) track_id ref filtered None true true
  | Some rows =>
      if (len rows =? 0)%Z then
        mkState (current_song_index st) track_id ref filtered None true true
      else
        let i := current_song_index st in
        let i := if (i >=? len rows)%Z then (len rows - 1)%Z else i in
        let i := if (i <? 0)%Z then 0%Z else i in
        let song := nth_error rows (Z.to_nat i) in
        mkState i track_id ref filtered song
                (i =? 0)%Z (i >=? len rows - 1)%Z
  end.

Definition on_prev_click (sort_values : list Scored -> list Scored)
    (df : list Song) (song_search : string) (cfg : Config) (st : State) : State :=
  let i := current_song_index st in
  let i := if (i >? 0)%Z then (i - 1)%Z else i in
  update_audio_player sort_values df song_search cfg
    (mkState i (selected_track_id st) (selected_ref st) (filtered_df st)
             (now_playing st) (prev_disabled st) (next_disabled st)).

Definition on_next_click (sort_values : list Scored -> list Scored)
    (df : list Song) (song_search : string) (cfg : Config) (st : State) : State :=
  let i := current_song_index st in
  let i := match filtered_df st with
           | Some rows => if (i <? len rows - 1)%Z then (i + 1)%Z else i
           | None => i
           end in
  update_audio_player sort_values df song_search cfg
    (mkState i (selected_track_id st) (selected_ref st) (filtered_df st)
             (now_playing st) (prev_disabled st) (next_disabled st)).

Definition reset_index (sort_values : list Scored -> list Scored)
    (df : list Song) (song_search : string) (cfg : Config) (st : State) : State :=
  update_audio_player sort_values df song_search cfg
    (mkState 0 (selected_track_id st) (selected_ref st) (filtered_df st)
             (now_playing st) (prev_disabled st) (next_disabled st)).

(** The circle of fifths of [get_key_distribution_wheel]. *)
Definition major_keys : list string :=
  ["C Major"; "G Major"; "D Major"; "A Major"; "E Major"; "B Major";
   "F# Major"; "C# Major"; "G# Major"; "D# Major"; "A# Major"; "F Major"].

Definition minor_keys : list string :=
  ["A Minor"; "E Minor"; "B Minor"; "F# Minor"; "C# Minor"; "G# Minor";
   "D# Minor"; "A# Minor"; "F Minor"; "C Minor"; "G Minor"; "D Minor"].

Definition all_keys : list string :=
  flat_map (fun pair => [fst pair; snd pair]) (combine major_keys minor_keys).

(** [key_counts.get(key, 0)]: the number of rows of the frame with that
    label; [value_counts] skips NaN labels. *)
Definition key_count (rows : list Scored) (label : string) : nat :=
  List.length (filter (fun r => cell_equals (full_key (row r)) label) rows).

(** The bar lengths of the wheel, one per label of [all_keys]. *)
Definition wheel_values (rows : list Scored) : list nat :=
  map (key_count rows) all_keys.

End Explorer.

(** An index brought into [0, n - 1], the way [update_audio_player] does
    for a frame of [n >= 1] rows. *)
Definition clamp (n i : Z) : Z := Z.max 0 (Z.min i (n - 1)).

(** [tie_catalog] with its text columns. *)
Definition tie_songs : list Song :=
  [mkSong (demo_track "ref" 120 2000) (Some "Song") (Some "Band");
   mkSong (demo_track "a" 120 2000) (Some "Tune") (Some "Band");
   mkSong (demo_track "b" 120 2000) (Some "Air") (Some "Band")].

(** The dashboard after "Song - Band" was picked in [tie_songs] with the
    default settings and a stable sort: two tied rows, the first loaded. *)
Definition tie_state : Explorer.State :=
  Explorer.mkState 0 (Some "ref")
    (Some (mkSong (demo_track "ref" 120 2000) (Some "Song") (Some "Band")))
    (Some [mkScored (demo_track "a" 120 2000) 0 1;
           mkScored (demo_track "b" 120 2000) 0 1])
    (Some (mkScored (demo_track "a" 120 2000) 0 1))
    true false.

(** ** The tempo filter in binary64 *)

(** [tempo] is a float64 column and lines 114-121 compute the six bounds in
    float64: each sum, product and quotient is rounded to the nearest
    double.  This module embeds [_filter_by_bpm] on IEEE 754 binary64
    values (the Standard Library's [spec_float] with 53 bits of precision),
    for the properties that depend on where the rounded bounds fall. *)
Module Binary64.

Definition prec : Z := 53.
Definition emax : Z := 1024.

Definition float64 : Set := spec_float.

(** [float(z)] for a Python int, as numpy converts [bpm_tolerance] and the
    literal 2. *)
Definition of_int (z : Z) : float64 := binary_normalize prec emax z 0 false.

(** The double a CSV cell [n/d] (a decimal such as 123.002 = 123002/1000) is
    read as: the nearest double to the quotient. *)
Definition of_decimal (n d : Z) : float64 :=
  SFdiv prec emax (of_int n) (of_int d).

Definition sub (x y : float64) : float64 := SFsub prec emax x y.
Definition add (x y : float64) : float64 := SFadd prec emax x y.
Definition mul (x y : float64) : float64 := SFmul prec emax x y.
Definition div (x y : float64) : float64 := SFdiv prec emax x y.

(** The real number a finite double stands for; [None] for NaN and the
    infinities. *)
Definition value (x : float64) : option Q :=
  match x with
  | S754_zero _ => Some 0%Q
  | S754_finite s m e =>
      Some (inject_Z (if s then Z.neg m else Z.pos m) * Qpower 2 e)%Q
  | _ => None
  end.

(** A row as the tempo filter reads it. *)
Record TempoRow := mkTempoRow {
  tempo_track_id : string;
  tempo64 : float64
}.

(** [(lo <= x) & (x <= hi)] on one cell; a comparison with NaN is false. *)
Definition between (lo hi x : float64) : bool :=
  SFleb lo x && SFleb x hi.

Definition bpm_bands (ref_tempo : float64) (tol : Z)
    : (float64 * float64) * (float64 * float64) * (float64 * float64) :=
  let bpm_min := sub ref_tempo (of_int tol) in
  let bpm_max := add ref_tempo (of_int tol) in
  let double_min := mul (of_int 2) bpm_min in
  let double_max := mul (of_int 2) bpm_max in
  let half_min := div bpm_min (of_int 2) in
  let half_max := div bpm_max (of_int 2) in
  ((bpm_min, bpm_max), (double_min, double_max), (half_min, half_max)).

Definition _filter_by_bpm (df : list TempoRow) (reference_song : TempoRow)
    (tol : Z) (double_half : bool) : list TempoRow :=
  let '((bpm_min, bpm_max), (double_min, double_max), (half_min, half_max)) :=
    bpm_bands (tempo64 reference_song) tol in
  if double_half then
    filter (fun t =>
              between bpm_min bpm_max (tempo64 t)
              || between double_min double_max (tempo64 t)
              || between half_min half_max (tempo64 t)) df
  else
    filter (fun t => between bpm_min bpm_max (tempo64 t)) df.

(** [x <= y] and [x < y] on doubles, as propositions. *)
Definition le (x y : float64) : Prop := SFleb x y = true.
Definition lt (x y : float64) : Prop := SFltb x y = true.

(** A row with the given id and the tempo read from the decimal [n/d]. *)
Definition row (id : string) (n d : Z) : TempoRow :=
  mkTempoRow id (of_decimal n d).

End Binary64.

(** * The sort behind [sort_values] *)

(** [DataFrame.sort_values('similarity', ascending=False)] hands the column
    to pandas' [nargsort], which calls [ndarray.argsort(kind='quicksort')]:
    NumPy's introsort on an array of positions.  This is the scalar routine
    [aquicksort_] of [npysort/quicksort.cpp] with the [aheapsort_] it falls
    back on; builds of NumPy that use vector instructions sort with another
    routine, which is not stable either. *)
Module NumPy.

(** Partitions of at most this many cells are left to the insertion sort. *)
Definition SMALL_QUICKSORT : nat := 16.

(** Reading and writing one cell of the position array [tosort]. *)
Definition deref (tosort : list nat) (p : nat) : nat := nth p tosort 0%nat.

Fixpoint assign (tosort : list nat) (p : nat) (x : nat) : list nat :=
  match tosort, p with
  | [], _ => []
  | _ :: rest, O => x :: rest
  | y :: rest, S p' => y :: assign rest p' x
  end.

(** [INTP_SWAP] of the cells at [p] and [q]. *)
Definition INTP_SWAP (tosort : list nat) (p q : nat) : list nat :=
  assign (assign tosort p (deref tosort q)) q (deref tosort p).

(** [npy_get_msb]. *)
Definition npy_get_msb (num : nat) : Z := Z.log2 (Z.of_nat num).

Section Argsort.

(** [less i j] is [Tag::less(v[i], v[j])] on the key array [v]. *)
Variable less : nat -> nat -> bool.

(** [do { ++pi; } while (Tag::less(v[*pi], vp));] with [vp = v[vi]]. *)
Fixpoint scan_up (room : nat) (tosort : list nat) (vi pi : nat) : nat :=
  match room with
  | O => S pi
  | S room' =>
      if less (deref tosort (S pi)) vi then scan_up room' tosort vi (S pi)
      else S pi
  end.

(** [do { --pj; } while (Tag::less(vp, v[*pj]));]. *)
Fixpoint scan_down (room : nat) (tosort : list nat) (vi pj : nat) : nat :=
  match room with
  | O => pred pj
  | S room' =>
      if less vi (deref tosort (pred pj)) then scan_down room' tosort vi (pred pj)
      else pred pj
  end.

(** The [for (;;)] loop of the partition; returns the array and [pi]. *)
Fixpoint hoare (room : nat) (tosort : list nat) (vi pi pj : nat)
    : list nat * nat :=
  match room with
  | O => (tosort, pi)
  | S room' =>
      let pi := scan_up (List.length tosort) tosort vi pi in
      let pj := scan_down (List.length tosort) tosort vi pj in
      if (pj <=? pi)%nat then (tosort, pi)
      else hoare room' (INTP_SWAP tosort pi pj) vi pi pj
  end.

(** The inner [while] of the insertion sort: the cells above [pl] whose key
    is greater than [v[vi]] move up by one; returns the array and [pj]. *)
Fixpoint shift_up (room : nat) (tosort : list nat) (vi pl pj : nat)
    : list nat * nat :=
  match room with
  | O => (tosort, pj)
  | S room' =>
      if (pl <? pj)%nat && less vi (deref tosort (pred pj))
      then shift_up room' (assign tosort pj (deref tosort (pred pj))) vi pl (pred pj)
      else (tosort, pj)
  end.

(** [for (pi = pl + 1; pi <= pr; ++pi)], with [count] cells to go. *)
Fixpoint insertion_sort (count : nat) (tosort : list nat) (pl pi : nat)
    : list nat :=
  match count with
  | O => tosort
  | S count' =>
      let vi := deref tosort pi in
      let '(tosort, pj) := shift_up pi tosort vi pl pi in
      insertion_sort count' (assign tosort pj vi) pl (S pi)
  end.

(** [while ((pr - pl) > SMALL_QUICKSORT)]: median of three, partition, and
    the larger part pushed on the stack with the depth left for it. *)
Fixpoint partition_loop (room : nat) (tosort : list nat) (pl pr : nat)
    (cdepth : Z) (stack : list (nat * nat * Z))
    : list nat * nat * nat * list (nat * nat * Z) :=
  match room with
  | O => (tosort, pl, pr, stack)
  | S room' =>
      if (SMALL_QUICKSORT <? pr - pl)%nat then
        let pm := (pl + Nat.div2 (pr - pl))%nat in
        let tosort := if less (deref tosort pm) (deref tosort pl)
                      then INTP_SWAP tosort pm pl else tosort in
        let tosort := if less (deref tosort pr) (deref tosort pm)
                      then INTP_SWAP tosort pr pm else tosort in
        let tosort := if less (deref tosort pm) (deref tosort pl)
                      then INTP_SWAP tosort pm pl else tosort in
        let vi := deref tosort pm in
        let pj := (pr - 1)%nat in
        let tosort := INTP_SWAP tosort pm pj in
        let '(tosort, pi) := hoare (pr - pl) tosort vi pl pj in
        let pk := (pr - 1)%nat in
        let tosort := INTP_SWAP tosort pi pk in
        let cdepth := (cdepth - 1)%Z in
        if (pi - pl <? pr - pi)%nat
        then partition_loop room' tosort pl (pi - 1) cdepth
                            ((pi + 1, pr, cdepth)%nat :: stack)
        else partition_loop room' tosort (pi + 1) pr cdepth
                            ((pl, pi - 1, cdepth)%nat :: stack)
      else (tosort, pl, pr, stack)
  end.

(** [aheapsort_]: the heap is the [n] cells from [base], addressed from 1. *)
Definition heap_get (tosort : list nat) (base k : nat) : nat :=
  deref tosort (base + k - 1).

Definition heap_set (tosort : list nat) (base k x : nat) : list nat :=
  assign tosort (base + k - 1) x.

(** [for (i = .., j = ..; j <= n;) { .. } a[i] = tmp;] *)
Fixpoint sift (room : nat) (tosort : list nat) (base n tmp i j : nat)
    : list nat :=
  match room with
  | O => heap_set tosort base i tmp
  | S room' =>
      if (j <=? n)%nat then
        let j := if (j <? n)%nat
                    && less (heap_get tosort base j) (heap_get tosort base (j + 1))
                 then (j + 1)%nat else j in
        if less tmp (heap_get tosort base j)
        then sift room' (heap_set tosort base i (heap_get tosort base j))
                  base n tmp j (j + j)
        else heap_set tosort base i tmp
      else heap_set tosort base i tmp
  end.

(** [for (l = n >> 1; l > 0; --l)]. *)
Fixpoint heapify (l : nat) (tosort : list nat) (base n : nat) : list nat :=
  match l with
  | O => tosort
  | S l' =>
      heapify l' (sift n tosort base n (heap_get tosort base l) l (l + l)) base n
  end.

(** [for (; n > 1;)]. *)
Fixpoint sort_down (n : nat) (tosort : list nat) (base : nat) : list nat :=
  match n with
  | S (S _ as n') =>
      let tmp := heap_get tosort base n in
      let tosort := heap_set tosort base n (heap_get tosort base 1) in
      sort_down n' (sift n' tosort base n' tmp 1 2) base
  | _ => tosort
  end.

Definition aheapsort_ (tosort : list nat) (base n : nat) : list nat :=
  sort_down n (heapify (Nat.div2 n) tosort base n) base.

(** The outer [while (1)] of [aquicksort_], one turn per stack entry.
    [None]: the turns ran out before the stack was empty. *)
Fixpoint aquicksort_loop (turns : nat) (tosort : list nat) (pl pr : nat)
    (cdepth : Z) (stack : list (nat * nat * Z)) : option (list nat) :=
  match turns with
  | O => None
  | S turns' =>
      let '(tosort, stack) :=
        if (cdepth <? 0)%Z
        then (aheapsort_ tosort pl (pr - pl + 1), stack)
        else
          let '(tosort, pl, pr, stack) :=
            partition_loop (List.length tosort) tosort pl pr cdepth stack in
          (insertion_sort (pr - pl) tosort pl (S pl), stack) in
      match stack with
      | [] => Some tosort
      | (pl, pr, cdepth) :: stack => aquicksort_loop turns' tosort pl pr cdepth stack
      end
  end.

(** [aquicksort_(v, tosort, num)]; every partition step puts one cell in
    its final place, so [num + 1] turns are enough. *)
Definition aquicksort_ (tosort : list nat) (num : nat) : option (list nat) :=
  aquicksort_loop (S num) tosort 0 (num - 1) (2 * npy_get_msb num) [].

(** [ndarray.argsort(kind='quicksort')] on [num] keys. *)
Definition argsort (num : nat) : option (list nat) :=
  aquicksort_ (seq 0 num) num.

End Argsort.
End NumPy.

(** The C comparison [a < b] on two keys. *)
Definition Rltb (x y : R) : bool := if Rlt_dec x y then true else false.

(** [Tag::less] on the key array [v], by position. *)
Definition less_at (v : list R) (i j : nat) : bool :=
  match nth_error v i, nth_error v j with
  | Some x, Some y => Rltb x y
  | _, _ => false
  end.

(** pandas' [nargsort(items, kind='quicksort', ascending=False)] on a column
    without NaN: the column and its positions are reversed, argsorted, and
    the indexer is reversed again. *)
Definition nargsort_descending (items : list R) : option (list nat) :=
  let idx := seq 0 (List.length items) in
  let non_nans := rev items in
  let non_nan_idx := rev idx in
  match NumPy.argsort (less_at non_nans) (List.length non_nans) with
  | Some order => Some (rev (map (fun o => nth o non_nan_idx 0%nat) order))
  | None => None
  end.

(** [DataFrame.take(indexer)]: the rows at the given positions. *)
Definition take {Row : Type} (df : list Row) (indexer : list nat) : list Row :=
  flat_map (fun i => match nth_error df i with
                     | Some r => [r]
                     | None => []
                     end) indexer.

(** [df.sort_values('similarity', ascending=False)] through [nargsort] and
    NumPy's introsort.  The frame comes back as it is only when the sort
    ran out of turns. *)
Definition numpy_sort_values (df : list Scored) : list Scored :=
  match nargsort_descending (map similarity df) with
  | Some indexer => take df indexer
  | None => df
  end.

(** The catalog positions of the rows with a given id. *)
Definition positions (id : string) (df : list Track) : list nat :=
  map fst (filter (fun it => String.eqb (track_id (snd it)) id)
                  (combine (seq 0 (List.length df)) df)).

(** A reference and three hundred rows that agree with it on every feature;
    their ids are "t0", "t1", ... *)
Definition crowd_id (k : nat) : string :=
  "t" ++ NilEmpty.string_of_uint (Nat.to_uint k).

Definition crowd_row (k : nat) : Track := demo_track (crowd_id k) 120 2000.

Definition crowd_catalog : list Track :=
  demo_track "ref" 120 2000 :: map crowd_row (seq 0 300).

(** * Properties *)

(** Linear arithmetic over [Q] and over [R]. *)
Ltac qlra := Lqa.lra.
Ltac rlra := Lra.lra.

(** ** Tempo filter *)

Lemma between_iff (lo hi x : Q) :
  between lo hi x = true <-> (lo <= x)%Q /\ (x <= hi)%Q.
Proof.
  unfold between. rewrite andb_true_iff, !Qle_bool_iff. tauto.
Qed.


(** ** The tempo filter in binary64 *)

Lemma between64_iff (lo hi x : Binary64.float64) :
  Binary64.between lo hi x = true <-> Binary64.le lo x /\ Binary64.le x hi.
Proof.
  unfold Binary64.between, Binary64.le. now rewrite andb_true_iff.
Qed.

(** A comparison of doubles, read the other way round. *)
Lemma SFcompare_antisym (x y : spec_float) (c : comparison) :
  SFcompare x y = Some c -> SFcompare y x = Some (CompOpp c).
Proof.
  destruct x as [sx | sx | | sx mx ex], y as [sy | sy | | sy my ey];
    simpl; try discriminate; intros [= <-];
    try (destruct sx; reflexivity); try (destruct sy; reflexivity);
    try (destruct sx, sy; reflexivity).
  pose proof (Pos.compare_cont_antisym mx my Eq) as Hm. simpl in Hm.
  destruct sx, sy; try reflexivity;
    rewrite (Z.compare_antisym ex ey);
    destruct (ex ?= ey)%Z; simpl; try reflexivity;
    rewrite <- Hm; now rewrite ?CompOpp_involutive.
Qed.

Lemma SFcompare_refl (x y : spec_float) (c : comparison) :
  SFcompare y x = Some c -> SFcompare x x = Some Eq.
Proof.
  destruct x as [sx | sx | | sx mx ex], y as [sy | sy | | sy my ey];
    simpl; try discriminate; intros _;
    try reflexivity; try (destruct sx; reflexivity);
    destruct sx; now rewrite Z.compare_refl, Pos.compare_cont_refl.
Qed.

Lemma le64_refl (lo x : Binary64.float64) : Binary64.le lo x -> Binary64.le x x.
Proof.
  unfold Binary64.le, SFleb.
  destruct (SFcompare lo x) as [c |] eqn:Hc; [| discriminate].
  intros _. now rewrite (SFcompare_refl x lo c Hc).
Qed.

Lemma lt64_not_le (x y : Binary64.float64) :
  Binary64.lt x y -> ~ Binary64.le y x.
Proof.
  unfold Binary64.lt, Binary64.le, SFltb, SFleb.
  destruct (SFcompare x y) as [[| |] |] eqn:Hc; try discriminate.
  intros _. rewrite (SFcompare_antisym x y Lt Hc). simpl. discriminate.
Qed.

(** C2 as stated fails: the reference is read from 123.002, the candidate
    from 128.002 and the tolerance is 5.  The double sum [bpm_max] is the
    candidate's own double, so the row passes; but the number the
    candidate's double stands for lies above the exact sum, and outside
    the doubled and the halved exact band as well. *)
Lemma exact_bands_miss_rounded_sum :
  Binary64._filter_by_bpm [Binary64.row "c" 128002 1000]
                          (Binary64.row "ref" 123002 1000) 5 true
  = [Binary64.row "c" 128002 1000]
  /\ exists r c : Q,
      Binary64.value (Binary64.of_decimal 123002 1000) = Some r
      /\ Binary64.value (Binary64.of_decimal 128002 1000) = Some c
      /\ ~ in_band (fst (fst (bpm_bands r 5))) c
      /\ ~ in_band (snd (fst (bpm_bands r 5))) c
      /\ ~ in_band (snd (bpm_bands r 5)) c.
Proof.
  split; [vm_compute; reflexivity |].
  eexists. eexists.
  split; [vm_compute; reflexivity |]. split; [vm_compute; reflexivity |].
  unfold in_band, bpm_bands. cbv zeta. simpl fst. simpl snd.
  split; [| split].
  - intros [_ H]. revert H. apply Qlt_not_le. vm_compute. reflexivity.
  - intros [H _]. revert H. apply Qlt_not_le. vm_compute. reflexivity.
  - intros [_ H]. revert H. apply Qlt_not_le. vm_compute. reflexivity.
Qed.

(** C2, amended: with [include_double_half] on, a row passes
    [_filter_by_bpm] exactly when its tempo lies, in double comparison, in
    one of the three inclusive bands whose bounds are the doubles the code
    computes: [bpm_min] and [bpm_max] (the rounded difference and sum),
    their rounded doubles and their rounded halves.  At reference tempo 120
    and tolerance 5 the rows at 240, 60 and 121 pass and the row at 200
    does not. *)
Theorem rounded_bands_decide_tempo_filter :
  (forall df ref tol t,
      In t (Binary64._filter_by_bpm df ref tol true) <->
      In t df /\
      let bpm_min := Binary64.sub (Binary64.tempo64 ref) (Binary64.of_int tol) in
      let bpm_max := Binary64.add (Binary64.tempo64 ref) (Binary64.of_int tol) in
      let two := Binary64.of_int 2 in
      (Binary64.le bpm_min (Binary64.tempo64 t)
       /\ Binary64.le (Binary64.tempo64 t) bpm_max)
      \/ (Binary64.le (Binary64.mul two bpm_min) (Binary64.tempo64 t)
          /\ Binary64.le (Binary64.tempo64 t) (Binary64.mul two bpm_max))
      \/ (Binary64.le (Binary64.div bpm_min two) (Binary64.tempo64 t)
          /\ Binary64.le (Binary64.tempo64 t) (Binary64.div bpm_max two)))
  /\ Binary64._filter_by_bpm
       [Binary64.row "a" 240 1; Binary64.row "b" 60 1;
        Binary64.row "c" 121 1; Binary64.row "d" 200 1]
       (Binary64.row "ref" 120 1) 5 true
     = [Binary64.row "a" 240 1; Binary64.row "b" 60 1; Binary64.row "c" 121 1].
Proof.
  split; [| vm_compute; reflexivity].
  intros df ref tol t. unfold Binary64._filter_by_bpm, Binary64.bpm_bands.
  cbv zeta. rewrite filter_In, !orb_true_iff, !between64_iff. tauto.
Qed.

(** C8 as stated fails: at reference tempo 2^53 + 2 and tolerance 1 the
    double sum [bpm_max] is 2^53 + 4 (2^53 + 3 is no double), so the
    candidate at exactly [ref_tempo + bpm_tolerance + 1] passes. *)
Lemma next_tempo_kept_beyond_2p53 :
  exists r c : Q,
    Binary64.value (Binary64.of_int 9007199254740994) = Some r
    /\ Binary64.value (Binary64.of_int 9007199254740996) = Some c
    /\ (r == 9007199254740994)%Q
    /\ (c == r + 1 + 1)%Q
    /\ Binary64._filter_by_bpm
         [Binary64.mkTempoRow "c" (Binary64.of_int 9007199254740996)]
         (Binary64.mkTempoRow "ref" (Binary64.of_int 9007199254740994)) 1 false
       = [Binary64.mkTempoRow "c" (Binary64.of_int 9007199254740996)].
Proof.
  eexists. eexists.
  split; [vm_compute; reflexivity |]. split; [vm_compute; reflexivity |].
  split; [vm_compute; reflexivity |]. split; vm_compute; reflexivity.
Qed.

(** C8, amended: without double/half matching the upper boundary is the
    double sum [bpm_max] of the reference tempo and the tolerance, and it
    is inclusive: when the band is not empty a row whose tempo is [bpm_max]
    passes, and a row whose tempo is greater than [bpm_max] never does. *)
Theorem rounded_upper_bound_inclusive (df : list Binary64.TempoRow)
    (ref c : Binary64.TempoRow) (tol : Z) :
  In c df ->
  Binary64.le (Binary64.sub (Binary64.tempo64 ref) (Binary64.of_int tol))
              (Binary64.add (Binary64.tempo64 ref) (Binary64.of_int tol)) ->
  (Binary64.tempo64 c
   = Binary64.add (Binary64.tempo64 ref) (Binary64.of_int tol) ->
   In c (Binary64._filter_by_bpm df ref tol false))
  /\ (Binary64.lt (Binary64.add (Binary64.tempo64 ref) (Binary64.of_int tol))
                  (Binary64.tempo64 c) ->
      ~ In c (Binary64._filter_by_bpm df ref tol false)).
Proof.
  intros Hin Hband. unfold Binary64._filter_by_bpm, Binary64.bpm_bands.
  cbv zeta. split; intros Hc; rewrite filter_In, between64_iff.
  - rewrite Hc. split; [assumption |]. split; [assumption |].
    now apply le64_refl with (lo := Binary64.sub (Binary64.tempo64 ref)
                                                 (Binary64.of_int tol)).
  - intros [_ [_ Hle]]. now apply (lt64_not_le _ _ Hc).
Qed.

Lemma rounded_upper_bound_inclusive_witness :
  In (Binary64.row "c" 125 1)
     (Binary64._filter_by_bpm [Binary64.row "c" 125 1; Binary64.row "d" 126 1]
                              (Binary64.row "ref" 120 1) 5 false)
  /\ ~ In (Binary64.row "d" 126 1)
          (Binary64._filter_by_bpm [Binary64.row "c" 125 1; Binary64.row "d" 126 1]
                                   (Binary64.row "ref" 120 1) 5 false).
Proof.
  split.
  - apply (rounded_upper_bound_inclusive
             [Binary64.row "c" 125 1; Binary64.row "d" 126 1]
             (Binary64.row "ref" 120 1) (Binary64.row "c" 125 1) 5);
      [simpl; auto | vm_compute; reflexivity | vm_compute; reflexivity].
  - apply (rounded_upper_bound_inclusive
             [Binary64.row "c" 125 1; Binary64.row "d" 126 1]
             (Binary64.row "ref" 120 1) (Binary64.row "d" 126 1) 5);
      [simpl; auto | vm_compute; reflexivity | vm_compute; reflexivity].
Defined.




(** ** Relative keys *)

Lemma relative_key_in_range (k m : Z) :
  (0 <= fst (relative_key k m) < 12)%Z.
Proof.
  unfold relative_key. destruct (m =? 1)%Z; simpl; apply Z.mod_pos_bound; lia.
Qed.

Lemma key_map_defined (k : Z) :
  (0 <= k < 12)%Z -> exists name, key_map k = Some name.
Proof.
  intros Hk.
  assert (Hcases : (k = 0 \/ k = 1 \/ k = 2 \/ k = 3 \/ k = 4 \/ k = 5 \/ k = 6
                    \/ k = 7 \/ k = 8 \/ k = 9 \/ k = 10 \/ k = 11)%Z) by lia.
  repeat (destruct Hcases as [-> | Hcases]; [eexists; reflexivity |]).
  subst k. eexists; reflexivity.
Qed.

(** The dict lookup [key_map[relative_key_num]] never raises: the relative
    key always has a label. *)
Lemma relative_key_label_defined (k m : Z) :
  exists label,
    key_label (fst (relative_key k m)) (snd (relative_key k m)) = Some label.
Proof.
  destruct (key_map_defined _ (relative_key_in_range k m)) as [name Hname].
  unfold key_label. rewrite Hname.
  unfold relative_key. destruct (m =? 1)%Z; simpl; eexists; reflexivity.
Qed.

(** C5: the relative of (p, major) is ((p+9) mod 12, minor), the relative of
    (p, minor) is ((p+3) mod 12, major); on pitch classes 0..11 the mapping
    flips the mode and is its own inverse; C major and A minor are relatives
    of each other. *)
Theorem relative_key_involution (p m : Z) :
  (0 <= p < 12)%Z ->
  (m = 0 \/ m = 1)%Z ->
  relative_key p 1 = ((p + 9) mod 12, 0)%Z
  /\ relative_key p 0 = ((p + 3) mod 12, 1)%Z
  /\ snd (relative_key p m) = (1 - m)%Z
  /\ relative_key (fst (relative_key p m)) (snd (relative_key p m)) = (p, m)
  /\ relative_key 0 1 = (9, 0)%Z
  /\ relative_key 9 0 = (0, 1)%Z
  /\ key_label 0 1 = Some "C Major"
  /\ key_label 9 0 = Some "A Minor".
Proof.
  intros Hp Hm. repeat split.
  - destruct Hm; subst m; reflexivity.
  - destruct Hm; subst m; unfold relative_key; simpl; f_equal.
    + rewrite Zplus_mod_idemp_l.
      replace (p + 3 + 9)%Z with (p + 1 * 12)%Z by lia.
      rewrite Z_mod_plus_full. apply Z.mod_small; lia.
    + rewrite Zplus_mod_idemp_l.
      replace (p + 9 + 3)%Z with (p + 1 * 12)%Z by lia.
      rewrite Z_mod_plus_full. apply Z.mod_small; lia.
Qed.

Lemma relative_key_involution_witness :
  relative_key (fst (relative_key 7 1)) (snd (relative_key 7 1)) = (7, 1)%Z.
Proof.
  apply (relative_key_involution 7 1); [lia | right; reflexivity].
Defined.

(** ** Sorting: both sample sorts return the rows in descending order *)

Lemma insert_desc_perm (x : Scored) (l : list Scored) :
  Permutation (x :: l) (insert_desc x l).
Proof.
  induction l as [| y ys IH]; simpl.
  - apply Permutation_refl.
  - destruct (Rlt_dec (similarity x) (similarity y)).
    + apply perm_trans with (y :: x :: ys); [apply perm_swap |].
      now apply perm_skip.
    + apply Permutation_refl.
Qed.

Lemma insert_desc_descending (x : Scored) (l : list Scored) :
  descending l -> descending (insert_desc x l).
Proof.
  unfold descending. induction l as [| y ys IH]; simpl; intros Hs.
  - constructor; constructor.
  - inversion Hs as [| ? ? Hys Hall]; subst.
    destruct (Rlt_dec (similarity x) (similarity y)) as [Hlt | Hge].
    + constructor; [now apply IH |].
      apply (Permutation_Forall (insert_desc_perm x ys)).
      constructor; [rlra | assumption].
    + constructor; [assumption |].
      constructor; [rlra |].
      rewrite Forall_forall in *. intros z Hz. specialize (Hall z Hz). rlra.
Qed.

Lemma insertion_sort_desc_perm (l : list Scored) :
  Permutation l (insertion_sort_desc l).
Proof.
  induction l as [| x xs IH]; simpl; [constructor |].
  apply perm_trans with (x :: insertion_sort_desc xs);
    [now apply perm_skip | apply insert_desc_perm].
Qed.

Lemma insertion_sort_desc_descending (l : list Scored) :
  descending (insertion_sort_desc l).
Proof.
  induction l as [| x xs IH]; simpl; [constructor |].
  now apply insert_desc_descending.
Qed.

(** ** Similarity scores *)

Lemma map_fst_combine_same_length {A B : Type} (l1 : list A) (l2 : list B) :
  List.length l1 = List.length l2 -> map fst (combine l1 l2) = l1.
Proof.
  revert l2. induction l1 as [| a l1 IH]; intros [| b l2] Hlen;
    simpl in *; try discriminate; [reflexivity |].
  f_equal. apply IH. now injection Hlen.
Qed.

Lemma distances_length (df : list Track) (ref : Track) :
  List.length (distances df ref) = List.length df.
Proof.
  unfold distances. destruct (normalize_year df ref). apply List.length_map.
Qed.

(** The returned frame holds the rows of [df], in the same order. *)
Lemma calculate_similarity_rows (df : list Track) (ref : Track) :
  map row (_calculate_similarity df ref) = df.
Proof.
  unfold _calculate_similarity. rewrite map_map. simpl.
  apply map_fst_combine_same_length. symmetry. apply distances_length.
Qed.

Lemma distances_nonneg (df : list Track) (ref : Track) (d : R) :
  In d (distances df ref) -> (0 <= d)%R.
Proof.
  unfold distances. destruct (normalize_year df ref) as [yn ryn].
  rewrite in_map_iff. intros [t [<- _]]. apply sqrt_pos.
Qed.

Lemma fold_Rmax_ge (l : list R) (x : R) :
  (x <= fold_left Rmax l x)%R
  /\ forall y, In y l -> (y <= fold_left Rmax l x)%R.
Proof.
  revert x. induction l as [| z zs IH]; intros x; simpl.
  - split; [rlra | contradiction].
  - destruct (IH (Rmax x z)) as [Hx Hzs]. split.
    + apply Rle_trans with (Rmax x z); [apply Rmax_l | assumption].
    + intros y [<- | Hy]; [| now apply Hzs].
      apply Rle_trans with (Rmax x z); [apply Rmax_r | assumption].
Qed.

Lemma series_Rmax_ge (l : list R) (d : R) :
  In d l -> exists m, series_Rmax l = Some m /\ (d <= m)%R.
Proof.
  destruct l as [| x xs]; [contradiction |]. intros Hd.
  exists (fold_left Rmax xs x). split; [reflexivity |].
  destruct (fold_Rmax_ge xs x) as [Hx Hxs].
  destruct Hd as [<- | Hd]; [assumption | now apply Hxs].
Qed.

Lemma similarity_of_range (l : list R) (d : R) :
  In d l -> (0 <= d)%R ->
  (0 <= similarity_of (series_Rmax l) d <= 1)%R.
Proof.
  intros Hin Hd. destruct (series_Rmax_ge l d Hin) as [m [-> Hm]].
  unfold similarity_of. destruct (Rlt_dec 0 m) as [Hpos | _]; [| rlra].
  unfold Rdiv.
  assert (Hinv : (0 < / m)%R) by now apply Rinv_0_lt_compat.
  assert (Hone : (m * / m = 1)%R) by (apply Rinv_r; rlra).
  assert (Hlo : (0 <= d * / m)%R) by (apply Rmult_le_pos; rlra).
  assert (Hhi : (d * / m <= m * / m)%R) by (apply Rmult_le_compat_r; rlra).
  rlra.
Qed.

Lemma calculate_similarity_range (df : list Track) (ref : Track) :
  Forall (fun r => (0 <= similarity r <= 1)%R) (_calculate_similarity df ref).
Proof.
  rewrite Forall_forall. intros r. unfold _calculate_similarity.
  rewrite in_map_iff. intros [[t d] [<- Hin]]. simpl.
  apply in_combine_r in Hin.
  apply similarity_of_range; [assumption |].
  now apply distances_nonneg with (df := df) (ref := ref).
Qed.

Lemma Q2R_zero (q : Q) : (q == 0)%Q -> Q2R q = 0%R.
Proof.
  intros Hq. rewrite (Qeq_eqR _ _ Hq). unfold Q2R. simpl. rlra.
Qed.

(** When every row is at squared distance 0 from the reference, the
    [distance] column is 0 and the [similarity] column is 1.0. *)
Lemma calculate_similarity_all_zero (df : list Track) (ref : Track) :
  (forall t, In t df ->
             (sum_squared_diffs (fst (normalize_year df ref))
                                (snd (normalize_year df ref)) ref t == 0)%Q) ->
  _calculate_similarity df ref = map (fun t => mkScored t 0 1) df.
Proof.
  intros Hzero.
  assert (Hd : distances df ref = map (fun _ => 0%R) df).
  { unfold distances. destruct (normalize_year df ref) as [yn ryn].
    simpl in Hzero. apply map_ext_in. intros t Ht.
    rewrite (Q2R_zero _ (Hzero t Ht)). apply sqrt_0. }
  unfold _calculate_similarity. rewrite Hd.
  assert (Hsim : forall d, similarity_of (series_Rmax (map (fun _ : Track => 0%R) df)) d
                           = 1%R).
  { intros d. destruct df as [| t ts]; [reflexivity |].
    assert (Hmax : forall (l : list Track) x, x = 0%R ->
                     fold_left Rmax (map (fun _ : Track => 0%R) l) x = 0%R).
    { induction l as [| ? ? IH]; intros x Hx; simpl; [assumption |].
      apply IH. subst x. apply Rmax_left. rlra. }
    unfold similarity_of. simpl series_Rmax. rewrite (Hmax ts 0%R eq_refl).
    destruct (Rlt_dec 0 0) as [Hpos | _]; [rlra | reflexivity]. }
  clear Hd Hzero. revert Hsim.
  generalize (series_Rmax (map (fun _ : Track => 0%R) df)). intros m Hsim.
  induction df as [| t ts IH]; simpl; [reflexivity |].
  rewrite Hsim. f_equal. apply IH.
Qed.

Lemma sum_squared_diffs_identical (yn : Track -> Q) (ryn : Q) (ref c : Track) :
  (danceability c == danceability ref)%Q ->
  (energy c == energy ref)%Q ->
  (valence c == valence ref)%Q ->
  (acousticness c == acousticness ref)%Q ->
  (instrumentalness c == instrumentalness ref)%Q ->
  (speechiness c == speechiness ref)%Q ->
  (liveness c == liveness ref)%Q ->
  (yn c == ryn)%Q ->
  (sum_squared_diffs yn ryn ref c == 0)%Q.
Proof.
  intros H1 H2 H3 H4 H5 H6 H7 H8.
  unfold sum_squared_diffs, squared_diffs, audio_features, Qsq. simpl.
  rewrite H1, H2, H3, H4, H5, H6, H7, H8. ring.
Qed.

Lemma normalize_year_degenerate (df : list Track) (ref : Track) :
  series_min (map year df) = series_max (map year df) ->
  normalize_year df ref = (fun _ => 0%Q, 0%Q).
Proof.
  unfold normalize_year. intros ->.
  destruct (series_max (map year df)) as [y |]; [| reflexivity].
  now rewrite Z.sub_diag.
Qed.

(** C6: the degenerate cases of [_calculate_similarity].  If the largest
    distance is 0 every similarity is exactly 1.0; if the smallest and the
    largest year of the frame coincide every normalised year, the
    reference's included, is 0; a single candidate that agrees with the
    reference on the seven audio features (its normalised year agrees by
    the previous point) gets distance 0 and similarity 1.0. *)
Theorem degenerate_normalization (df : list Track) (ref c : Track) :
  (series_Rmax (distances df ref) = Some 0%R ->
   Forall (fun r => similarity r = 1%R) (_calculate_similarity df ref))
  /\ (series_min (map year df) = series_max (map year df) ->
      (forall t, fst (normalize_year df ref) t = 0%Q)
      /\ snd (normalize_year df ref) = 0%Q)
  /\ ((danceability c == danceability ref)%Q ->
      (energy c == energy ref)%Q ->
      (valence c == valence ref)%Q ->
      (acousticness c == acousticness ref)%Q ->
      (instrumentalness c == instrumentalness ref)%Q ->
      (speechiness c == speechiness ref)%Q ->
      (liveness c == liveness ref)%Q ->
      _calculate_similarity [c] ref = [mkScored c 0 1]).
Proof.
  split; [| split].
  - intros Hmax. unfold _calculate_similarity. rewrite Hmax.
    rewrite Forall_forall. intros r. rewrite in_map_iff.
    intros [[t d] [<- _]]. simpl.
    destruct (Rlt_dec 0 0) as [Hpos | _]; [rlra | reflexivity].
  - intros Hyears. rewrite (normalize_year_degenerate df ref Hyears).
    split; reflexivity.
  - intros H1 H2 H3 H4 H5 H6 H7.
    apply (calculate_similarity_all_zero [c] ref).
    intros t [<- | []].
    rewrite (normalize_year_degenerate [c] ref eq_refl). simpl fst. simpl snd.
    apply sum_squared_diffs_identical; try assumption. reflexivity.
Qed.

Lemma degenerate_normalization_witness :
  Forall (fun r => similarity r = 1%R)
         (_calculate_similarity [demo_track "a" 120 2000] (demo_track "ref" 120 2000))
  /\ snd (normalize_year [demo_track "a" 120 2000] (demo_track "ref" 120 2000)) = 0%Q
  /\ _calculate_similarity [demo_track "a" 120 2000] (demo_track "ref" 120 2000)
     = [mkScored (demo_track "a" 120 2000) 0 1].
Proof.
  assert (Hsole : _calculate_similarity [demo_track "a" 120 2000]
                                        (demo_track "ref" 120 2000)
                  = [mkScored (demo_track "a" 120 2000) 0 1]).
  { apply (degenerate_normalization [] (demo_track "ref" 120 2000)
                                    (demo_track "a" 120 2000)); reflexivity. }
  split; [| split].
  - apply (degenerate_normalization [demo_track "a" 120 2000]
                                    (demo_track "ref" 120 2000)
                                    (demo_track "a" 120 2000)).
    replace (distances [demo_track "a" 120 2000] (demo_track "ref" 120 2000))
      with (map distance (_calculate_similarity [demo_track "a" 120 2000]
                                                (demo_track "ref" 120 2000))).
    + rewrite Hsole. reflexivity.
    + unfold _calculate_similarity. rewrite map_map. simpl.
      reflexivity.
  - apply (degenerate_normalization [demo_track "a" 120 2000]
                                    (demo_track "ref" 120 2000)
                                    (demo_track "a" 120 2000)).
    reflexivity.
  - exact Hsole.
Defined.

(** ** The filter pipeline *)

(** Every filter of the pipeline is a [filter]: unfold them all and reason
    on membership. *)
Ltac unfold_pipeline :=
  unfold compatible_candidates, candidates_before_year,
         _filter_by_key, _filter_by_bpm, bpm_bands in *;
  cbv zeta in *; simpl bpm_tolerance in *; simpl include_double_half in *;
  simpl match_key in *; simpl include_relative in *; simpl match_genre in *;
  simpl match_subgenre in *; simpl year_tolerance in *.

Ltac split_switches :=
  repeat match goal with
         | |- context [if ?b then _ else _] => destruct b; simpl negb in *
         | H : context [if ?b then _ else _] |- _ => destruct b; simpl negb in *
         end.

Lemma compatible_candidates_before_year df rid ref cfg t :
  In t (compatible_candidates df rid ref cfg) <->
  In t (candidates_before_year df rid ref cfg)
  /\ (year ref - year_tolerance cfg <= year t <= year ref + year_tolerance cfg)%Z.
Proof.
  unfold compatible_candidates. cbv zeta.
  rewrite filter_In, andb_true_iff, !Z.leb_le. tauto.
Qed.

Lemma candidates_before_year_catalog df rid ref cfg t :
  In t (candidates_before_year df rid ref cfg) ->
  In t df /\ track_id t <> rid.
Proof.
  intros Hin.
  assert (Hbase : In t (filter (fun t => negb (String.eqb (track_id t) rid)) df)).
  { unfold_pipeline. split_switches; repeat (rewrite filter_In in Hin);
      repeat (rewrite filter_In); tauto. }
  rewrite filter_In, negb_true_iff, String.eqb_neq in Hbase. exact Hbase.
Qed.

Lemma reference_lookup df rid :
  filter (fun t => String.eqb (track_id t) rid) df = []
  <-> forall t, In t df -> track_id t <> rid.
Proof.
  split.
  - intros Hnil t Hin Hid.
    assert (Hf : In t (filter (fun t => String.eqb (track_id t) rid) df)).
    { rewrite filter_In. split; [assumption |]. now apply String.eqb_eq. }
    rewrite Hnil in Hf. contradiction.
  - intros Hall.
    destruct (filter (fun t => String.eqb (track_id t) rid) df) as [| r rest] eqn:Hf;
      [reflexivity | exfalso].
    assert (Hr : In r (filter (fun t => String.eqb (track_id t) rid) df))
      by (rewrite Hf; now left).
    rewrite filter_In, String.eqb_eq in Hr. destruct Hr as [Hin Hid].
    exact (Hall r Hin Hid).
Qed.

(** ** The query, for any sort that returns the rows in descending order *)

Section RankedQuery.

Variable sort_values : list Scored -> list Scored.
Hypothesis sort_values_perm : forall l, Permutation l (sort_values l).
Hypothesis sort_values_desc : forall l, descending (sort_values l).

Lemma find_of_reference df rid cfg ref rest :
  filter (fun t => String.eqb (track_id t) rid) df = ref :: rest ->
  find_compatible_songs sort_values df rid cfg
  = Some (sort_values
            (_calculate_similarity (compatible_candidates df rid ref cfg) ref)).
Proof. unfold find_compatible_songs. now intros ->. Qed.

Lemma ranked_rows_perm df rid cfg ref :
  Permutation
    (compatible_candidates df rid ref cfg)
    (map row (sort_values
                (_calculate_similarity (compatible_candidates df rid ref cfg) ref))).
Proof.
  rewrite <- (calculate_similarity_rows (compatible_candidates df rid ref cfg) ref)
    at 1.
  apply Permutation_map, sort_values_perm.
Qed.

Lemma result_ids_spec df rid cfg id :
  In id (result_ids (find_compatible_songs sort_values df rid cfg)) <->
  exists ref rest t,
    filter (fun t => String.eqb (track_id t) rid) df = ref :: rest
    /\ In t (compatible_candidates df rid ref cfg)
    /\ track_id t = id.
Proof.
  unfold find_compatible_songs.
  destruct (filter (fun t => String.eqb (track_id t) rid) df) as [| ref rest].
  - simpl. split; [contradiction | intros (? & ? & ? & ? & _); discriminate].
  - cbv zeta. unfold result_ids. rewrite <- (map_map row track_id).
    rewrite in_map_iff. split.
    + intros [t [Hid Hin]].
      apply (Permutation_in _ (Permutation_sym (ranked_rows_perm df rid cfg ref)))
        in Hin.
      now exists ref, rest, t.
    + intros (ref' & rest' & t & Heq & Hin & Hid). injection Heq as <- <-.
      exists t. split; [assumption |].
      now apply (Permutation_in _ (ranked_rows_perm df rid cfg ref)).
Qed.

(** C1: when the reference id is in the catalog the query returns a frame,
    and no row of that frame carries the reference id. *)
Theorem reference_never_ranked df rid cfg :
  (exists t, In t df /\ track_id t = rid) ->
  exists res,
    find_compatible_songs sort_values df rid cfg = Some res
    /\ Forall (fun r => track_id (row r) <> rid) res.
Proof.
  intros [t [Hin Hid]].
  destruct (filter (fun t => String.eqb (track_id t) rid) df) as [| ref rest] eqn:Hf.
  - rewrite reference_lookup in Hf. now elim (Hf t Hin).
  - eexists. split; [apply (find_of_reference _ _ _ _ _ Hf) |].
    rewrite Forall_forall. intros r Hr.
    apply (in_map row) in Hr.
    apply (Permutation_in _ (Permutation_sym (ranked_rows_perm df rid cfg ref)))
      in Hr.
    apply compatible_candidates_before_year in Hr. destruct Hr as [Hr _].
    now apply candidates_before_year_catalog in Hr.
Qed.

(** C3, amended: every similarity of the returned frame lies in [0, 1] and
    the frame is ordered by non-increasing similarity. *)
Theorem ranked_scores_bounded_and_descending df rid cfg res :
  find_compatible_songs sort_values df rid cfg = Some res ->
  Forall (fun r => (0 <= similarity r <= 1)%R) res /\ descending res.
Proof.
  unfold find_compatible_songs.
  destruct (filter (fun t => String.eqb (track_id t) rid) df) as [| ref rest];
    [discriminate |].
  intros [= <-]. split; [| apply sort_values_desc].
  eapply Permutation_Forall; [apply sort_values_perm |].
  apply calculate_similarity_range.
Qed.

(** C4: the query answers [None] exactly when no catalog row carries the
    reference id; when the reference is there and the filters leave no
    candidate, it answers the empty frame. *)
Theorem not_found_iff_reference_absent df rid cfg :
  (find_compatible_songs sort_values df rid cfg = None
   <-> forall t, In t df -> track_id t <> rid)
  /\ (forall ref rest,
         filter (fun t => String.eqb (track_id t) rid) df = ref :: rest ->
         compatible_candidates df rid ref cfg = [] ->
         find_compatible_songs sort_values df rid cfg = Some []).
Proof.
  split.
  - rewrite <- reference_lookup. unfold find_compatible_songs.
    destruct (filter (fun t => String.eqb (track_id t) rid) df);
      split; intros; try reflexivity; discriminate.
  - intros ref rest Hf Hnone. rewrite (find_of_reference _ _ _ _ _ Hf), Hnone.
    f_equal. apply Permutation_nil. apply sort_values_perm.
Qed.

(** C9: the year filter runs for every configuration; a candidate dated
    exactly [ref_year - year_tolerance] that passed the other filters is
    in the result, one dated a year earlier is not. *)
Theorem year_boundary_inclusive df rid cfg ref rest :
  filter (fun t => String.eqb (track_id t) rid) df = ref :: rest ->
  exists res,
    find_compatible_songs sort_values df rid cfg = Some res
    /\ Forall (fun r => (year ref - year_tolerance cfg <= year (row r)
                         <= year ref + year_tolerance cfg)%Z) res
    /\ forall c,
        In c (candidates_before_year df rid ref cfg) ->
        ((0 <= year_tolerance cfg)%Z ->
         year c = (year ref - year_tolerance cfg)%Z ->
         In c (map row res))
        /\ (year c = (year ref - year_tolerance cfg - 1)%Z ->
            ~ In c (map row res)).
Proof.
  intros Hf. eexists. split; [apply (find_of_reference _ _ _ _ _ Hf) |].
  pose proof (ranked_rows_perm df rid cfg ref) as Hperm.
  split; [| intros c Hc; split].
  - rewrite Forall_forall. intros r Hr. apply (in_map row) in Hr.
    apply (Permutation_in _ (Permutation_sym Hperm)) in Hr.
    now apply compatible_candidates_before_year in Hr.
  - intros Htol Hyear. apply (Permutation_in _ Hperm).
    apply compatible_candidates_before_year. split; [assumption | lia].
  - intros Hyear Hin. apply (Permutation_in _ (Permutation_sym Hperm)) in Hin.
    apply compatible_candidates_before_year in Hin. lia.
Qed.

(** C10: switching [match_genre], [match_subgenre] or [match_key] on never
    adds a track id to the result. *)
Theorem enabling_filter_never_adds df rid tol dh mk ir mg msg ytol :
  incl (result_ids (find_compatible_songs sort_values df rid
                      (mkConfig tol dh mk ir true msg ytol)))
       (result_ids (find_compatible_songs sort_values df rid
                      (mkConfig tol dh mk ir false msg ytol)))
  /\ incl (result_ids (find_compatible_songs sort_values df rid
                         (mkConfig tol dh mk ir mg true ytol)))
          (result_ids (find_compatible_songs sort_values df rid
                         (mkConfig tol dh mk ir mg false ytol)))
  /\ incl (result_ids (find_compatible_songs sort_values df rid
                         (mkConfig tol dh true ir mg msg ytol)))
          (result_ids (find_compatible_songs sort_values df rid
                         (mkConfig tol dh false ir mg msg ytol))).
Proof.
  repeat split; intros id; rewrite !result_ids_spec;
    intros (ref & rest & t & Hf & Hin & Hid);
    exists ref, rest, t; (split; [assumption |]); (split; [| assumption]);
    clear Hf Hid; unfold_pipeline; split_switches;
    repeat (rewrite filter_In in Hin); repeat (rewrite filter_In); tauto.
Qed.

End RankedQuery.

(** ** The worked scenarios *)

Lemma tie_catalog_scores :
  _calculate_similarity
    (compatible_candidates tie_catalog "ref" (demo_track "ref" 120 2000) default_config)
    (demo_track "ref" 120 2000)
  = [mkScored (demo_track "a" 120 2000) 0 1; mkScored (demo_track "b" 120 2000) 0 1].
Proof.
  replace (compatible_candidates tie_catalog "ref" (demo_track "ref" 120 2000)
                                 default_config)
    with [demo_track "a" 120 2000; demo_track "b" 120 2000] by reflexivity.
  rewrite calculate_similarity_all_zero; [reflexivity |].
  intros t [<- | [<- | []]]; vm_compute; reflexivity.
Qed.

(** A stable sort returns the two tied rows in catalog order. *)
Lemma tie_catalog_stable :
  find_compatible_songs insertion_sort_desc tie_catalog "ref" default_config
  = Some [mkScored (demo_track "a" 120 2000) 0 1;
          mkScored (demo_track "b" 120 2000) 0 1].
Proof.
  rewrite (find_of_reference insertion_sort_desc tie_catalog "ref" default_config
             (demo_track "ref" 120 2000) [] eq_refl).
  rewrite tie_catalog_scores. unfold insertion_sort_desc. simpl.
  destruct (Rlt_dec 1 1) as [Hlt | _]; [rlra | reflexivity].
Qed.

(** ** NumPy's sort on tied rows *)

Lemma less_at_all_equal (v : list R) (c : R) :
  (forall x, In x v -> x = c) -> less_at v = fun _ _ => false.
Proof.
  intros Hall. apply functional_extensionality. intros i.
  apply functional_extensionality. intros j. unfold less_at.
  destruct (nth_error v i) as [x |] eqn:Hi; [| reflexivity].
  destruct (nth_error v j) as [y |] eqn:Hj; [| reflexivity].
  rewrite (Hall x (nth_error_In v i Hi)), (Hall y (nth_error_In v j Hj)).
  unfold Rltb. destruct (Rlt_dec c c) as [Hlt | _]; [| reflexivity].
  exfalso. exact (Rlt_irrefl c Hlt).
Qed.

(** On a column of equal keys every comparison of the sort fails. *)
Lemma nargsort_descending_ties (items : list R) (c : R) :
  (forall x, In x items -> x = c) ->
  nargsort_descending items
  = option_map
      (fun order =>
         rev (map (fun o => nth o (rev (seq 0 (List.length items))) 0%nat) order))
      (NumPy.argsort (fun _ _ => false) (List.length items)).
Proof.
  intros Hall. unfold nargsort_descending.
  rewrite (less_at_all_equal (rev items) c).
  - rewrite length_rev.
    now destruct (NumPy.argsort (fun _ _ => false) (List.length items)).
  - intros x Hx. apply Hall. now apply in_rev.
Qed.

Lemma take_map {Row Cell : Type} (f : Row -> Cell) (df : list Row)
    (indexer : list nat) :
  take (map f df) indexer = map f (take df indexer).
Proof.
  unfold take. induction indexer as [| i rest IH]; simpl; [reflexivity |].
  rewrite map_app, IH, nth_error_map.
  now destruct (nth_error df i).
Qed.

Lemma nth_error_take {Row : Type} (df : list Row) (indexer : list nat)
    (n k : nat) :
  Forall (fun i => (i < List.length df)%nat) indexer ->
  nth_error indexer n = Some k ->
  nth_error (take df indexer) n = nth_error df k.
Proof.
  unfold take. intros Hrange. revert n.
  induction Hrange as [| i rest Hi _ IH]; intros n Hn.
  - destruct n; discriminate.
  - simpl. destruct (nth_error df i) as [r |] eqn:Hr.
    + destruct n as [| n]; simpl in *.
      * injection Hn as <-. now symmetry.
      * now apply IH.
    + apply nth_error_None in Hr. lia.
Qed.

Lemma length_take {Row : Type} (df : list Row) (indexer : list nat) :
  Forall (fun i => (i < List.length df)%nat) indexer ->
  List.length (take df indexer) = List.length indexer.
Proof.
  unfold take. induction 1 as [| i rest Hi _ IH]; simpl; [reflexivity |].
  destruct (nth_error df i) as [r |] eqn:Hr.
  - simpl. now rewrite IH.
  - apply nth_error_None in Hr. lia.
Qed.

Lemma nth_error_positions (df : list Track) (n : nat) (t : Track) :
  nth_error df n = Some t -> In n (positions (track_id t) df).
Proof.
  unfold positions. intros Hn.
  assert (Hgen : forall (l : list Track) (s m : nat),
             nth_error l m = Some t ->
             In (s + m)%nat
                (map fst (filter (fun it => String.eqb (track_id (snd it)) (track_id t))
                                 (combine (seq s (List.length l)) l)))).
  { induction l as [| x xs IH]; intros s m Hm.
    - destruct m; discriminate.
    - destruct m as [| m]; simpl in Hm |- *.
      + injection Hm as ->. rewrite String.eqb_refl. left. simpl. lia.
      + specialize (IH (S s) m Hm).
        replace (s + S m)%nat with (S s + m)%nat by lia.
        destruct (String.eqb (track_id x) (track_id t)); [right |]; exact IH. }
  exact (Hgen df 0%nat n Hn).
Qed.

(** All of [crowd_catalog] but the reference passes the default filters. *)
Lemma crowd_candidates :
  compatible_candidates crowd_catalog "ref" (demo_track "ref" 120 2000)
                        default_config
  = map crowd_row (seq 0 300).
Proof. vm_compute. reflexivity. Qed.

(** And every one of them is at distance 0, so all three hundred score 1. *)
Lemma crowd_scores :
  _calculate_similarity (map crowd_row (seq 0 300)) (demo_track "ref" 120 2000)
  = map (fun t => mkScored t 0 1) (map crowd_row (seq 0 300)).
Proof.
  apply calculate_similarity_all_zero. intros t Ht.
  apply in_map_iff in Ht. destruct Ht as (k & <- & _).
  vm_compute. reflexivity.
Qed.

(** The indexer NumPy's sort returns for three hundred equal keys: it names
    every position once, and row 206 comes before row 204. *)
Lemma crowd_indexer :
  exists indexer : list nat,
    nargsort_descending (map similarity
                             (map (fun t => mkScored t 0 1)
                                  (map crowd_row (seq 0 300))))
    = Some indexer
    /\ Forall (fun i => (i < 300)%nat) indexer
    /\ List.length indexer = 300%nat
    /\ nth_error indexer 1 = Some 206%nat
    /\ nth_error indexer 2 = Some 204%nat.
Proof.
  rewrite (nargsort_descending_ties _ 1%R).
  - rewrite !length_map, length_seq.
    assert (Hrun : exists indexer : list nat,
               option_map
                 (fun order =>
                    rev (map (fun o => nth o (rev (seq 0 300)) 0%nat) order))
                 (NumPy.argsort (fun _ _ => false) 300)
               = Some indexer
               /\ forallb (fun i => (i <? 300)%nat) indexer = true
               /\ List.length indexer = 300%nat
               /\ nth_error indexer 1 = Some 206%nat
               /\ nth_error indexer 2 = Some 204%nat).
    { eexists. split; [vm_compute; reflexivity |].
      repeat split; vm_compute; reflexivity. }
    destruct Hrun as (indexer & Hrun & Hrange & Hrest).
    exists indexer. split; [exact Hrun |]. split; [| exact Hrest].
    apply Forall_forall. intros i Hi.
    rewrite forallb_forall in Hrange. apply Nat.ltb_lt. now apply Hrange.
  - intros x Hx. rewrite map_map in Hx. apply in_map_iff in Hx.
    now destruct Hx as (t & <- & _).
Qed.

(** On the two tied rows of [tie_catalog] the same sort keeps the catalog
    order: there are too few rows for a partition step. *)
Lemma numpy_sort_on_tie_catalog :
  find_compatible_songs numpy_sort_values tie_catalog "ref" default_config
  = Some [mkScored (demo_track "a" 120 2000) 0 1;
          mkScored (demo_track "b" 120 2000) 0 1].
Proof.
  rewrite (find_of_reference numpy_sort_values tie_catalog "ref" default_config
             (demo_track "ref" 120 2000) [] eq_refl).
  rewrite tie_catalog_scores. unfold numpy_sort_values.
  rewrite (nargsort_descending_ties _ 1%R).
  - reflexivity.
  - intros x [<- | [<- | []]]; reflexivity.
Qed.

(** C3 as stated fails: in [crowd_catalog] three hundred rows agree with the
    reference on every feature, so all of them score 1.0, and the sort that
    [sort_values] runs (pandas' [nargsort] over NumPy's introsort) moves
    tied rows in its partition steps: the row from catalog position 207
    ("t206") is returned before the row from position 205 ("t204"). *)
Lemma introsort_leaves_catalog_order :
  exists res : list Scored,
    find_compatible_songs numpy_sort_values crowd_catalog "ref" default_config
    = Some res
    /\ List.length res = 300%nat
    /\ Forall (fun r => similarity r = 1%R) res
    /\ ~ keeps_catalog_order crowd_catalog res.
Proof.
  assert (Href : filter (fun t => String.eqb (track_id t) "ref") crowd_catalog
                 = [demo_track "ref" 120 2000])
    by (vm_compute; reflexivity).
  rewrite (find_of_reference numpy_sort_values crowd_catalog "ref" default_config
             (demo_track "ref" 120 2000) [] Href).
  rewrite crowd_candidates, crowd_scores. unfold numpy_sort_values.
  destruct crowd_indexer as (indexer & -> & Hrange & Hlen & Hat1 & Hat2).
  assert (Hrows : Forall (fun i => (i < List.length (map crowd_row (seq 0 300)))%nat)
                         indexer)
    by now rewrite length_map, length_seq.
  eexists. split; [reflexivity |].
  rewrite take_map. split; [| split].
  - now rewrite length_map, length_take.
  - apply Forall_forall. intros r Hr. apply in_map_iff in Hr.
    now destruct Hr as (t & <- & _).
  - intros Hkeep.
    destruct (Hkeep 1%nat 2%nat (mkScored (crowd_row 206) 0 1)
                    (mkScored (crowd_row 204) 0 1))
      as (i & j & Hlt & Hi & Hj).
    + lia.
    + rewrite nth_error_map, (nth_error_take _ _ _ _ Hrows Hat1).
      rewrite nth_error_map. reflexivity.
    + rewrite nth_error_map, (nth_error_take _ _ _ _ Hrows Hat2).
      rewrite nth_error_map. reflexivity.
    + reflexivity.
    + simpl row in Hi, Hj.
      apply nth_error_positions in Hi. apply nth_error_positions in Hj.
      vm_compute in Hi. vm_compute in Hj.
      destruct Hi as [<- | []]. destruct Hj as [<- | []]. lia.
Qed.

(** With the stable sort the same query keeps the catalog order. *)
Lemma stable_sort_keeps_tie_catalog_order :
  keeps_catalog_order tie_catalog
    [mkScored (demo_track "a" 120 2000) 0 1;
     mkScored (demo_track "b" 120 2000) 0 1].
Proof.
  intros i j a b Hlt Hi Hj _.
  destruct i as [| [| i]]; destruct j as [| [| j]]; simpl in Hi, Hj;
    try lia; try (destruct i; discriminate); try (destruct j; discriminate).
  injection Hi as <-. injection Hj as <-.
  exists 1%nat, 2%nat. repeat split. lia.
Qed.

Lemma reference_never_ranked_witness :
  exists res,
    find_compatible_songs insertion_sort_desc tie_catalog "ref" default_config
    = Some res
    /\ Forall (fun r => track_id (row r) <> "ref") res.
Proof.
  apply (reference_never_ranked insertion_sort_desc insertion_sort_desc_perm
           tie_catalog "ref" default_config).
  exists (demo_track "ref" 120 2000). split; [simpl; auto | reflexivity].
Defined.

Lemma ranked_scores_bounded_and_descending_witness :
  Forall (fun r => (0 <= similarity r <= 1)%R)
         [mkScored (demo_track "a" 120 2000) 0 1;
          mkScored (demo_track "b" 120 2000) 0 1]
  /\ descending [mkScored (demo_track "a" 120 2000) 0 1;
                 mkScored (demo_track "b" 120 2000) 0 1].
Proof.
  apply (ranked_scores_bounded_and_descending insertion_sort_desc
           insertion_sort_desc_perm insertion_sort_desc_descending
           tie_catalog "ref" default_config).
  exact tie_catalog_stable.
Defined.

Lemma not_found_iff_reference_absent_witness :
  find_compatible_songs insertion_sort_desc sparse_catalog "ref" default_config
  = Some [].
Proof.
  apply (not_found_iff_reference_absent insertion_sort_desc insertion_sort_desc_perm
           sparse_catalog "ref" default_config)
    with (ref := demo_track "ref" 120 2000) (rest := []); reflexivity.
Defined.

Lemma year_boundary_inclusive_witness :
  exists res,
    find_compatible_songs insertion_sort_desc year_catalog "ref" default_config
    = Some res
    /\ In (demo_track "old" 120 1990) (map row res)
    /\ ~ In (demo_track "older" 120 1989) (map row res).
Proof.
  destruct (year_boundary_inclusive insertion_sort_desc insertion_sort_desc_perm
              year_catalog "ref" default_config (demo_track "ref" 120 2000) []
              eq_refl) as [res [Hfind [_ Hc]]].
  assert (Hbefore :
            candidates_before_year year_catalog "ref" (demo_track "ref" 120 2000)
                                   default_config
            = [demo_track "old" 120 1990; demo_track "older" 120 1989])
    by reflexivity.
  exists res. split; [exact Hfind |]. split.
  - apply (Hc (demo_track "old" 120 1990));
      [rewrite Hbefore; simpl; auto | simpl; lia | reflexivity].
  - apply (Hc (demo_track "older" 120 1989));
      [rewrite Hbefore; simpl; auto | reflexivity].
Defined.

Lemma enabling_filter_never_adds_witness :
  incl (result_ids (find_compatible_songs insertion_sort_desc year_catalog "ref"
                      (mkConfig 5 false true false true false 10)))
       (result_ids (find_compatible_songs insertion_sort_desc year_catalog "ref"
                      (mkConfig 5 false true false false false 10))).
Proof.
  apply (enabling_filter_never_adds insertion_sort_desc insertion_sort_desc_perm
           year_catalog "ref" 5 false true false false false 10).
Defined.

(** * The rest of the API *)

(** ** Lookups *)

Lemma filter_map_track (f : Track -> bool) (df : list Song) :
  filter f (map track df) = map track (filter (fun r => f (track r)) df).
Proof.
  induction df as [| r rs IH]; simpl; [reflexivity |].
  destruct (f (track r)); simpl; now rewrite IH.
Qed.

Lemma filter_head_spec {A : Type} (f : A -> bool) (l : list A) (x : A) (rest : list A) :
  filter f l = x :: rest ->
  In x l /\ f x = true
  /\ exists before after,
       l = (before ++ x :: after)%list /\ forall y, In y before -> f y = false.
Proof.
  induction l as [| a l IH]; simpl; [discriminate |].
  destruct (f a) eqn:Hfa.
  - intros [= -> <-]. repeat split; auto.
    exists [], l. split; [reflexivity | contradiction].
  - intros Hf. destruct (IH Hf) as (Hin & Hfx & before & after & -> & Hbefore).
    repeat split; auto.
    exists (a :: before), after. split; [reflexivity |].
    intros y [<- | Hy]; auto.
Qed.

Lemma filter_nil_iff {A : Type} (f : A -> bool) (l : list A) :
  filter f l = [] <-> forall x, In x l -> f x = false.
Proof.
  induction l as [| a l IH]; simpl.
  - split; [contradiction | reflexivity].
  - destruct (f a) eqn:Hfa.
    + split; [discriminate |]. intros H. specialize (H a (or_introl eq_refl)).
      congruence.
    + rewrite IH. split.
      * intros H x [<- | Hx]; auto.
      * intros H x Hx. apply H. now right.
Qed.

(** X1: [get_track_by_id] answers [None] exactly when [find_compatible_songs]
    does, and the row it returns is a catalog row with the requested id: the
    very row the query ranks the candidates against. *)
Theorem get_track_by_id_is_query_reference
    (sort_values : list Scored -> list Scored) (df : list Song) (id : string)
    (cfg : Config) :
  (get_track_by_id df id = None
   <-> find_compatible_songs sort_values (map track df) id cfg = None)
  /\ forall r,
      get_track_by_id df id = Some r ->
      In r df /\ track_id (track r) = id
      /\ find_compatible_songs sort_values (map track df) id cfg
         = Some (sort_values
                   (_calculate_similarity
                      (compatible_candidates (map track df) id (track r) cfg)
                      (track r))).
Proof.
  unfold get_track_by_id, find_compatible_songs. rewrite filter_map_track.
  destruct (filter (fun r => String.eqb (track_id (track r)) id) df)
    as [| first rest] eqn:Hf; simpl.
  - split; [tauto | discriminate].
  - split; [split; discriminate |].
    intros r [= <-]. apply filter_head_spec in Hf.
    destruct Hf as (Hin & Hid & _). apply String.eqb_eq in Hid. auto.
Qed.

Lemma get_track_by_id_is_query_reference_witness :
  get_track_by_id [mkSong (demo_track "ref" 120 2000) (Some "Song") (Some "Band")]
                  "ref"
  = Some (mkSong (demo_track "ref" 120 2000) (Some "Song") (Some "Band"))
  /\ find_compatible_songs insertion_sort_desc
       (map track [mkSong (demo_track "ref" 120 2000) (Some "Song") (Some "Band")])
       "ref" default_config
     = Some (insertion_sort_desc
               (_calculate_similarity
                  (compatible_candidates
                     (map track [mkSong (demo_track "ref" 120 2000)
                                        (Some "Song") (Some "Band")])
                     "ref" (demo_track "ref" 120 2000) default_config)
                  (demo_track "ref" 120 2000))).
Proof.
  split; [reflexivity |].
  apply (proj2 (get_track_by_id_is_query_reference insertion_sort_desc
                  [mkSong (demo_track "ref" 120 2000) (Some "Song") (Some "Band")]
                  "ref" default_config)
               (mkSong (demo_track "ref" 120 2000) (Some "Song") (Some "Band"))).
  reflexivity.
Defined.

Lemma cell_equals_iff (cell : option string) (s : string) :
  cell_equals cell s = true <-> cell = Some s.
Proof.
  destruct cell as [x |]; simpl.
  - rewrite String.eqb_eq. split; [now intros -> | now intros [= ->]].
  - split; discriminate.
Qed.

Lemma truthy_iff (s : string) : truthy (Some s) = true <-> s <> "".
Proof.
  destruct s; simpl; split; try discriminate; try congruence; auto.
Qed.

Lemma search_resolves_to_first_row (df : list Song) (s : string) :
  s <> "" ->
  (get_track_id_from_search df (Some s) = None
   <-> ~ In (Some s) (get_search_options df))
  /\ forall id,
      get_track_id_from_search df (Some s) = Some id ->
      exists before r after,
        df = (before ++ r :: after)%list
        /\ search_string r = Some s
        /\ track_id (track r) = id
        /\ forall r', In r' before -> search_string r' <> Some s.
Proof.
  intros Hs. unfold get_track_id_from_search.
  apply truthy_iff in Hs. rewrite Hs. simpl negb. cbv iota.
  destruct (filter (fun r => cell_equals (search_string r) s) df)
    as [| first rest] eqn:Hf.
  - split; [| discriminate]. split; [intros _ | reflexivity].
    unfold get_search_options. rewrite in_map_iff. intros [r [Hr Hin]].
    rewrite filter_nil_iff in Hf. specialize (Hf r Hin).
    apply cell_equals_iff in Hr. congruence.
  - apply filter_head_spec in Hf.
    destruct Hf as (Hin & Hcell & before & after & -> & Hbefore).
    apply cell_equals_iff in Hcell. split.
    + split; [discriminate |]. intros Hnot. exfalso. apply Hnot.
      unfold get_search_options. rewrite in_map_iff. now exists first.
    + intros id [= <-]. exists before, first, after. repeat split; auto.
      intros r' Hr' Heq. specialize (Hbefore r' Hr').
      apply cell_equals_iff in Heq. congruence.
Qed.

(** X2: [get_track_id_from_search] answers [None] for [None] and for the
    empty string; a non-empty query resolves exactly when it is one of the
    autocomplete options, and then to the id of the first row carrying that
    search string. *)
Theorem get_track_id_from_search_spec (df : list Song) :
  get_track_id_from_search df None = None
  /\ get_track_id_from_search df (Some "") = None
  /\ forall s,
      s <> "" ->
      (get_track_id_from_search df (Some s) = None
       <-> ~ In (Some s) (get_search_options df))
      /\ forall id,
          get_track_id_from_search df (Some s) = Some id ->
          exists before r after,
            df = (before ++ r :: after)%list
            /\ search_string r = Some s
            /\ track_id (track r) = id
            /\ forall r', In r' before -> search_string r' <> Some s.
Proof.
  split; [reflexivity |]. split; [reflexivity |].
  intros s Hs. now apply search_resolves_to_first_row.
Qed.

Lemma get_track_id_from_search_spec_witness :
  get_track_id_from_search
    [mkSong (demo_track "ref" 120 2000) (Some "Song") (Some "Band")]
    (Some "Other - Band") = None
  <-> ~ In (Some "Other - Band")
          (get_search_options
             [mkSong (demo_track "ref" 120 2000) (Some "Song") (Some "Band")]).
Proof.
  apply (get_track_id_from_search_spec
           [mkSong (demo_track "ref" 120 2000) (Some "Song") (Some "Band")]).
  discriminate.
Defined.

Lemma filter_unique_key {A : Type} (key : A -> string) (l : list A) (r : A) :
  NoDup (map key l) -> In r l ->
  filter (fun x => String.eqb (key x) (key r)) l = [r].
Proof.
  induction l as [| a l IH]; simpl; [contradiction |].
  intros Hnd Hin. inversion Hnd as [| ? ? Hnotin Hnd']; subst.
  destruct Hin as [-> | Hin].
  - rewrite String.eqb_refl. f_equal.
    apply filter_nil_iff. intros x Hx. apply String.eqb_neq. intros Heq.
    apply Hnotin. rewrite <- Heq. now apply in_map.
  - destruct (String.eqb (key a) (key r)) eqn:Hk; [| now apply IH].
    apply String.eqb_eq in Hk. exfalso. apply Hnotin. rewrite Hk.
    now apply in_map.
Qed.

(** X3: in a catalog whose track ids are distinct, every non-empty
    autocomplete option resolves to an id, and looking that id up returns a
    row whose search string is the option. *)
Theorem search_then_lookup_round_trip (df : list Song) (s : string) :
  NoDup (map (fun r => track_id (track r)) df) ->
  s <> "" ->
  In (Some s) (get_search_options df) ->
  exists r,
    get_track_id_from_search df (Some s) = Some (track_id (track r))
    /\ get_track_by_id df (track_id (track r)) = Some r
    /\ search_string r = Some s.
Proof.
  intros Hnd Hs Hin.
  destruct (search_resolves_to_first_row df s Hs) as [Hnone Hsome].
  destruct (get_track_id_from_search df (Some s)) as [id |] eqn:Hget.
  - destruct (Hsome id eq_refl) as (before & r & after & Hdf & Hstr & Hid & _).
    exists r. subst id. repeat split; auto.
    unfold get_track_by_id.
    rewrite (filter_unique_key (fun r => track_id (track r)) df r Hnd);
      [reflexivity |].
    rewrite Hdf. apply in_or_app. right. now left.
  - exfalso. now apply (proj1 Hnone).
Qed.

Lemma search_then_lookup_round_trip_witness :
  exists r,
    get_track_id_from_search
      [mkSong (demo_track "ref" 120 2000) (Some "Song") (Some "Band");
       mkSong (demo_track "a" 120 2000) (Some "Tune") (Some "Band")]
      (Some "Tune - Band") = Some (track_id (track r))
    /\ get_track_by_id
         [mkSong (demo_track "ref" 120 2000) (Some "Song") (Some "Band");
          mkSong (demo_track "a" 120 2000) (Some "Tune") (Some "Band")]
         (track_id (track r)) = Some r
    /\ search_string r = Some "Tune - Band".
Proof.
  apply (search_then_lookup_round_trip
           [mkSong (demo_track "ref" 120 2000) (Some "Song") (Some "Band");
            mkSong (demo_track "a" 120 2000) (Some "Tune") (Some "Band")]
           "Tune - Band").
  - simpl. repeat constructor; simpl; intuition discriminate.
  - discriminate.
  - simpl. auto.
Defined.

(** ** Sorted unique values *)

Lemma string_lt_trans (a b c : string) :
  string_lt a b -> string_lt b c -> string_lt a c.
Proof.
  unfold string_lt, String.ltb. intros Hab Hbc.
  destruct (String.compare a b) eqn:Eab; try discriminate.
  destruct (String.compare b c) eqn:Ebc; try discriminate.
  apply String_as_OT.cmp_lt in Eab. apply String_as_OT.cmp_lt in Ebc.
  pose proof (String_as_OT.lt_trans _ _ _ Eab Ebc) as Hac.
  apply String_as_OT.cmp_lt in Hac. unfold String_as_OT.cmp in Hac.
  now rewrite Hac.
Qed.

Lemma string_lt_irrefl (a : string) : ~ string_lt a a.
Proof.
  unfold string_lt, String.ltb.
  assert (H : String.compare a a = Eq) by now apply String_as_OT.cmp_eq.
  rewrite H. discriminate.
Qed.

Lemma leb_neq_lt (a b : string) :
  String.leb a b = true -> a <> b -> string_lt a b.
Proof.
  unfold string_lt, String.leb, String.ltb. intros Hle Hne.
  destruct (String.compare a b) eqn:E; try discriminate; [| reflexivity].
  apply String.compare_eq_iff in E. contradiction.
Qed.

Lemma not_leb_lt (a b : string) :
  String.leb a b = false -> string_lt b a.
Proof.
  unfold string_lt, String.leb, String.ltb. rewrite (String.compare_antisym b a).
  destruct (String.compare a b); simpl; intros H; try discriminate; reflexivity.
Qed.

Lemma In_insert_sorted (x z : string) (l : list string) :
  In z (insert_sorted x l) <-> z = x \/ In z l.
Proof.
  induction l as [| y ys IH]; simpl.
  - intuition.
  - destruct (String.leb x y); simpl; [intuition |]. rewrite IH. intuition.
Qed.

Lemma In_sorted (z : string) (l : list string) : In z (sorted l) <-> In z l.
Proof.
  induction l as [| x xs IH]; simpl; [tauto |].
  rewrite In_insert_sorted, IH. intuition.
Qed.

Lemma insert_sorted_strict (x : string) (l : list string) :
  StronglySorted string_lt l -> ~ In x l ->
  StronglySorted string_lt (insert_sorted x l).
Proof.
  induction l as [| y ys IH]; simpl; intros Hs Hx.
  - repeat constructor.
  - inversion Hs as [| ? ? Hys Hall]; subst.
    destruct (String.leb x y) eqn:Hle.
    + assert (Hxy : string_lt x y) by (apply leb_neq_lt; intuition).
      constructor; [assumption |]. constructor; [assumption |].
      rewrite Forall_forall in *. intros z Hz.
      apply string_lt_trans with y; auto.
    + constructor; [apply IH; intuition |].
      rewrite Forall_forall in *. intros z Hz.
      apply In_insert_sorted in Hz. destruct Hz as [-> | Hz]; auto.
      now apply not_leb_lt.
Qed.

Lemma In_unique (z : string) (l : list string) : In z (unique l) <-> In z l.
Proof.
  induction l as [| x xs IH]; simpl; [tauto |].
  rewrite filter_In, IH, negb_true_iff, String.eqb_neq.
  destruct (string_dec x z); intuition.
Qed.

Lemma NoDup_unique (l : list string) : NoDup (unique l).
Proof.
  induction l as [| x xs IH]; simpl; constructor.
  - rewrite filter_In, negb_true_iff, String.eqb_neq. intuition.
  - now apply NoDup_filter.
Qed.

Lemma sorted_strict (l : list string) :
  NoDup l -> StronglySorted string_lt (sorted l).
Proof.
  induction 1 as [| x xs Hx Hnd IH]; simpl; [constructor |].
  apply insert_sorted_strict; [assumption |]. now rewrite In_sorted.
Qed.

Lemma strict_NoDup (l : list string) : StronglySorted string_lt l -> NoDup l.
Proof.
  induction 1 as [| x xs Hs IH Hall]; constructor; [| assumption].
  intros Hin. rewrite Forall_forall in Hall.
  exact (string_lt_irrefl x (Hall x Hin)).
Qed.

Lemma In_get_genres (df : list Song) (g : string) :
  In g (get_genres df) <-> exists r, In r df /\ playlist_genre (track r) = g.
Proof.
  unfold get_genres. rewrite In_sorted, In_unique, in_map_iff.
  split; intros [r H]; exists r; tauto.
Qed.

(** X4: [get_genres] lists exactly the genres that occur in the catalog, in
    strictly increasing order, so each appears once. *)
Theorem get_genres_sorted_complete (df : list Song) :
  StronglySorted string_lt (get_genres df)
  /\ NoDup (get_genres df)
  /\ forall g,
      In g (get_genres df) <-> exists r, In r df /\ playlist_genre (track r) = g.
Proof.
  assert (Hs : StronglySorted string_lt (get_genres df))
    by (apply sorted_strict, NoDup_unique).
  split; [assumption |]. split; [now apply strict_NoDup |].
  apply In_get_genres.
Qed.

(** X5: [get_subgenres] is strictly increasing; with a non-empty genre it
    lists exactly the subgenres of that genre's rows, with [None] or the
    empty string those of every row; a genre picks a subset of the full list
    and a genre absent from [get_genres] picks nothing. *)
Theorem get_subgenres_spec (df : list Song) :
  (forall genre, StronglySorted string_lt (get_subgenres df genre))
  /\ (forall g s,
         g <> "" ->
         (In s (get_subgenres df (Some g))
          <-> exists r, In r df /\ playlist_genre (track r) = g
                        /\ playlist_subgenre (track r) = s))
  /\ get_subgenres df (Some "") = get_subgenres df None
  /\ (forall s,
         In s (get_subgenres df None)
         <-> exists r, In r df /\ playlist_subgenre (track r) = s)
  /\ (forall genre, incl (get_subgenres df genre) (get_subgenres df None))
  /\ (forall g, g <> "" -> ~ In g (get_genres df) -> get_subgenres df (Some g) = []).
Proof.
  assert (Hall : forall s,
             In s (get_subgenres df None)
             <-> exists r, In r df /\ playlist_subgenre (track r) = s).
  { intros s. unfold get_subgenres. rewrite In_sorted, In_unique, in_map_iff.
    split; intros [r H]; exists r; tauto. }
  assert (Hsome : forall g s,
             g <> "" ->
             (In s (get_subgenres df (Some g))
              <-> exists r, In r df /\ playlist_genre (track r) = g
                            /\ playlist_subgenre (track r) = s)).
  { intros g s Hg. unfold get_subgenres. apply truthy_iff in Hg. rewrite Hg.
    rewrite In_sorted, In_unique, in_map_iff. split.
    - intros [r [Hs Hin]]. rewrite filter_In, String.eqb_eq in Hin.
      exists r. tauto.
    - intros [r (Hin & Hgen & Hs)]. exists r. split; [assumption |].
      rewrite filter_In, String.eqb_eq. tauto. }
  split; [| split; [| split; [| split; [| split]]]].
  - intros genre. unfold get_subgenres. apply sorted_strict, NoDup_unique.
  - exact Hsome.
  - reflexivity.
  - exact Hall.
  - intros [g |] s Hs; [| assumption].
    destruct (string_dec g "") as [-> | Hg]; [assumption |].
    apply Hall. apply (Hsome g s Hg) in Hs. destruct Hs as [r H].
    exists r. tauto.
  - intros g Hg Hnot.
    destruct (get_subgenres df (Some g)) as [| s rest] eqn:Hget; [reflexivity |].
    exfalso. apply Hnot.
    assert (Hs : In s (get_subgenres df (Some g))) by (rewrite Hget; now left).
    apply (Hsome g s Hg) in Hs. destruct Hs as [r (Hin & Hgen & _)].
    apply In_get_genres. now exists r.
Qed.

Lemma get_subgenres_spec_witness :
  In "dance pop"
     (get_subgenres [mkSong (demo_track "ref" 120 2000) (Some "Song") (Some "Band")]
                    (Some "pop"))
  /\ get_subgenres [mkSong (demo_track "ref" 120 2000) (Some "Song") (Some "Band")]
                   (Some "rock") = [].
Proof.
  destruct (get_subgenres_spec
              [mkSong (demo_track "ref" 120 2000) (Some "Song") (Some "Band")])
    as (_ & Hsome & _ & _ & _ & Habsent).
  split.
  - apply Hsome; [discriminate |].
    exists (mkSong (demo_track "ref" 120 2000) (Some "Song") (Some "Band")).
    simpl. auto.
  - apply Habsent; [discriminate |].
    simpl. intros [H | []]. discriminate.
Defined.

(** ** Ranges of the catalog *)

Lemma fold_Zmin_spec (l : list Z) (x : Z) :
  In (fold_left Z.min l x) (x :: l)
  /\ forall y, In y (x :: l) -> (fold_left Z.min l x <= y)%Z.
Proof.
  revert x. induction l as [| z zs IH]; intros x; simpl.
  - split; [now left |]. intros y [<- | []]. lia.
  - destruct (IH (Z.min x z)) as [Hin Hle]. split.
    + destruct Hin as [Hin | Hin]; [| now right; right].
      rewrite <- Hin. destruct (Z.min_spec x z) as [[_ ->] | [_ ->]]; auto.
    + intros y [<- | [<- | Hy]].
      * specialize (Hle (Z.min x z) (or_introl eq_refl)). lia.
      * specialize (Hle (Z.min x z) (or_introl eq_refl)). lia.
      * apply Hle. now right.
Qed.

Lemma fold_Zmax_spec (l : list Z) (x : Z) :
  In (fold_left Z.max l x) (x :: l)
  /\ forall y, In y (x :: l) -> (y <= fold_left Z.max l x)%Z.
Proof.
  revert x. induction l as [| z zs IH]; intros x; simpl.
  - split; [now left |]. intros y [<- | []]. lia.
  - destruct (IH (Z.max x z)) as [Hin Hle]. split.
    + destruct Hin as [Hin | Hin]; [| now right; right].
      rewrite <- Hin. destruct (Z.max_spec x z) as [[_ ->] | [_ ->]]; auto.
    + intros y [<- | [<- | Hy]].
      * specialize (Hle (Z.max x z) (or_introl eq_refl)). lia.
      * specialize (Hle (Z.max x z) (or_introl eq_refl)). lia.
      * apply Hle. now right.
Qed.

Lemma series_min_spec (l : list Z) (lo : Z) :
  series_min l = Some lo -> In lo l /\ forall y, In y l -> (lo <= y)%Z.
Proof.
  destruct l as [| x xs]; simpl; [discriminate |]. intros [= <-].
  apply fold_Zmin_spec.
Qed.

Lemma series_max_spec (l : list Z) (hi : Z) :
  series_max l = Some hi -> In hi l /\ forall y, In y l -> (y <= hi)%Z.
Proof.
  destruct l as [| x xs]; simpl; [discriminate |]. intros [= <-].
  apply fold_Zmax_spec.
Qed.

Lemma in_notna (column : list (option Z)) (y : Z) :
  In y (notna column) <-> In (Some y) column.
Proof.
  unfold notna. rewrite in_flat_map. split.
  - intros ([x |] & Hin & Hy); [| destruct Hy].
    destruct Hy as [<- | []]. exact Hin.
  - intros Hin. exists (Some y). split; [exact Hin | now left].
Qed.

(** X6: [get_year_range] fails exactly when no row of the catalog has a
    parsed year (the empty catalog, or NaN in every row); otherwise it
    returns two years of the column, and every parsed year lies between
    them.  Rows with a NaN year are skipped. *)
Theorem get_year_range_spec (year_column : list (option Z)) :
  (get_year_range year_column = None
   <-> forall cell, In cell year_column -> cell = None)
  /\ forall lo hi,
      get_year_range year_column = Some (lo, hi) ->
      In (Some lo) year_column
      /\ In (Some hi) year_column
      /\ forall y, In (Some y) year_column -> (lo <= y <= hi)%Z.
Proof.
  unfold get_year_range. split.
  - destruct (notna year_column) as [| y ys] eqn:Hcol; simpl.
    + split; [| reflexivity]. intros _ [y |] Hin; [| reflexivity].
      apply in_notna in Hin. rewrite Hcol in Hin. destruct Hin.
    + split; [discriminate |]. intros Hall. exfalso.
      assert (Hin : In y (notna year_column)) by (rewrite Hcol; now left).
      apply in_notna in Hin. specialize (Hall _ Hin). discriminate.
  - intros lo hi.
    destruct (series_min (notna year_column)) as [lo' |] eqn:Hmin; [| discriminate].
    destruct (series_max (notna year_column)) as [hi' |] eqn:Hmax; [| discriminate].
    intros [= <- <-].
    apply series_min_spec in Hmin. apply series_max_spec in Hmax.
    destruct Hmin as [Hlo Hle]. destruct Hmax as [Hhi Hge].
    split; [now apply in_notna |]. split; [now apply in_notna |].
    intros y Hy. apply in_notna in Hy. split; [now apply Hle | now apply Hge].
Qed.

Lemma get_year_range_spec_witness :
  In (Some 1990%Z) [Some 2000%Z; None; Some 1990%Z]
  /\ In (Some 2000%Z) [Some 2000%Z; None; Some 1990%Z]
  /\ (1990 <= 2000 <= 2000)%Z.
Proof.
  destruct (proj2 (get_year_range_spec [Some 2000%Z; None; Some 1990%Z])
                  1990%Z 2000%Z eq_refl) as (Hlo & Hhi & Hall).
  split; [exact Hlo |]. split; [exact Hhi |].
  apply Hall. simpl. auto.
Defined.

Lemma fold_Qmin_spec (l : list Q) (x : Q) :
  forall y, In y (x :: l) -> (fold_left Qmin l x <= y)%Q.
Proof.
  revert x. induction l as [| z zs IH]; intros x; simpl.
  - intros y [<- | []]. apply Qle_refl.
  - intros y [<- | [<- | Hy]].
    + apply Qle_trans with (Qmin x z); [| apply Q.le_min_l].
      apply IH. now left.
    + apply Qle_trans with (Qmin x z); [| apply Q.le_min_r].
      apply IH. now left.
    + apply IH. now right.
Qed.

Lemma fold_Qmax_spec (l : list Q) (x : Q) :
  forall y, In y (x :: l) -> (y <= fold_left Qmax l x)%Q.
Proof.
  revert x. induction l as [| z zs IH]; intros x; simpl.
  - intros y [<- | []]. apply Qle_refl.
  - intros y [<- | [<- | Hy]].
    + apply Qle_trans with (Qmax x z); [apply Q.le_max_l |].
      apply IH. now left.
    + apply Qle_trans with (Qmax x z); [apply Q.le_max_r |].
      apply IH. now left.
    + apply IH. now right.
Qed.

Lemma fold_Qmin_nonneg (l : list Q) (x : Q) :
  (forall y, In y (x :: l) -> (0 <= y)%Q) -> (0 <= fold_left Qmin l x)%Q.
Proof.
  revert x. induction l as [| z zs IH]; intros x Hall; simpl.
  - apply Hall. now left.
  - apply IH. intros y [<- | Hy].
    + apply Q.min_glb; apply Hall; simpl; auto.
    + apply Hall. simpl; auto.
Qed.

Lemma py_int_floor (x : Q) : (0 <= x)%Q -> py_int x = Qfloor x.
Proof.
  destruct x as [n d]. unfold py_int, Qfloor, Qle. simpl. intros Hn.
  apply Z.quot_div_nonneg; lia.
Qed.

(** X7: [get_bpm_range] fails on the empty catalog; on a catalog of
    non-negative tempos it returns integers [lo <= hi] such that every tempo
    lies in [lo, hi + 1). *)
Theorem get_bpm_range_covers (df : list Song) :
  get_bpm_range [] = None
  /\ (df <> [] ->
      (forall r, In r df -> (0 <= tempo (track r))%Q) ->
      exists lo hi,
        get_bpm_range df = Some (lo, hi)
        /\ (0 <= lo <= hi)%Z
        /\ forall r, In r df ->
                     (inject_Z lo <= tempo (track r))%Q
                     /\ (tempo (track r) < inject_Z (hi + 1))%Q).
Proof.
  split; [reflexivity |]. intros Hne Hpos.
  destruct df as [| r0 rs]; [contradiction |]. clear Hne.
  unfold get_bpm_range. simpl map. simpl series_Qmin. simpl series_Qmax.
  set (ts := map (fun r => tempo (track r)) rs).
  set (t0 := tempo (track r0)).
  assert (Hall : forall y, In y (t0 :: ts) -> (0 <= y)%Q).
  { intros y [<- | Hy]; [apply Hpos; now left |].
    unfold ts in Hy. rewrite in_map_iff in Hy. destruct Hy as [r [<- Hr]].
    apply Hpos. now right. }
  pose proof (fold_Qmin_nonneg ts t0 Hall) as Hmin0.
  pose proof (fold_Qmin_spec ts t0) as Hmin.
  pose proof (fold_Qmax_spec ts t0) as Hmax.
  assert (Hmm : (fold_left Qmin ts t0 <= fold_left Qmax ts t0)%Q).
  { apply Qle_trans with t0; [apply Hmin | apply Hmax]; now left. }
  assert (Hmax0 : (0 <= fold_left Qmax ts t0)%Q) by (eapply Qle_trans; eauto).
  exists (py_int (fold_left Qmin ts t0)), (py_int (fold_left Qmax ts t0)).
  split; [reflexivity |]. rewrite !py_int_floor by assumption.
  split.
  - split; [| now apply Qfloor_resp_le].
    change 0%Z with (Qfloor 0). now apply Qfloor_resp_le.
  - intros r Hr.
    assert (Ht : In (tempo (track r)) (t0 :: ts)).
    { destruct Hr as [<- | Hr]; [now left | right].
      unfold ts. now apply (in_map (fun r => tempo (track r))). }
    split.
    + apply Qle_trans with (fold_left Qmin ts t0); [apply Qfloor_le | now apply Hmin].
    + apply Qle_lt_trans with (fold_left Qmax ts t0); [now apply Hmax | apply Qlt_floor].
Qed.

Lemma get_bpm_range_covers_witness :
  exists lo hi,
    get_bpm_range [mkSong (demo_track "ref" (2441 # 20) 2000) None None;
                   mkSong (demo_track "a" (1979 # 10) 2000) None None]
    = Some (lo, hi)
    /\ (0 <= lo <= hi)%Z.
Proof.
  destruct (proj2 (get_bpm_range_covers
                     [mkSong (demo_track "ref" (2441 # 20) 2000) None None;
                      mkSong (demo_track "a" (1979 # 10) 2000) None None]))
    as (lo & hi & Hget & Hle & _).
  - discriminate.
  - intros r [<- | [<- | []]]; simpl; discriminate.
  - exists lo, hi. split; assumption.
Defined.

(** * More on the engine *)

(** ** The pipeline as a conjunction *)

Lemma option_string_eqb_eq (a b : option string) :
  option_string_eqb a b = true <-> a = b.
Proof.
  destruct a as [x |], b as [y |]; simpl;
    try (split; [discriminate | discriminate]); try tauto.
  rewrite String.eqb_eq. split; [now intros -> | now intros [= ->]].
Qed.

Lemma isin_allowed_keys (r : Track) (relative : bool) (t : Track) :
  isin (full_key t) (allowed_keys r relative) = true <->
  full_key t = full_key r
  \/ (relative = true
      /\ full_key t = key_label (fst (relative_key (key r) (mode r)))
                                (snd (relative_key (key r) (mode r)))).
Proof.
  unfold isin, allowed_keys.
  destruct (relative_key (key r) (mode r)) as [k m]. simpl fst. simpl snd.
  destruct relative; simpl; rewrite ?orb_true_iff, ?orb_false_r,
    ?option_string_eqb_eq; intuition discriminate.
Qed.

Lemma In_filter_by_bpm df r tol dh t :
  In t (_filter_by_bpm df r tol dh) <-> In t df /\ tempo_compatible r tol dh t.
Proof.
  unfold _filter_by_bpm, bpm_bands, tempo_compatible. cbv zeta.
  destruct dh; rewrite filter_In, ?orb_true_iff, !between_iff.
  - intuition.
  - intuition discriminate.
Qed.

Lemma In_filter_by_key df r mk rel t :
  In t (_filter_by_key df r mk rel) <-> In t df /\ key_compatible r mk rel t.
Proof.
  unfold _filter_by_key, key_compatible. destruct mk; simpl.
  - rewrite filter_In, isin_allowed_keys. intuition.
  - intuition discriminate.
Qed.

Lemma In_compatible_candidates df rid r cfg t :
  In t (compatible_candidates df rid r cfg) <->
  In t df /\ track_id t <> rid /\ compatible r cfg t.
Proof.
  unfold compatible_candidates, candidates_before_year, compatible,
    year_compatible.
  cbv zeta. rewrite filter_In, andb_true_iff, !Z.leb_le.
  destruct (match_subgenre cfg), (match_genre cfg);
    rewrite ?filter_In, In_filter_by_key, In_filter_by_bpm, ?filter_In,
      ?String.eqb_eq, negb_true_iff, String.eqb_neq;
    intuition discriminate.
Qed.

(** Dropping rows keeps the keys distinct. *)
Lemma filter_keeps_keys_distinct {Row Key : Type} (key : Row -> Key)
    (keep : Row -> bool) (rows : list Row) :
  NoDup (map key rows) -> NoDup (map key (filter keep rows)).
Proof.
  intros Hdistinct. induction rows as [| r rows IH]; simpl; [constructor |].
  simpl in Hdistinct. apply NoDup_cons_iff in Hdistinct.
  destruct Hdistinct as [Hfresh Hrest].
  destruct (keep r); simpl; [| now apply IH].
  apply NoDup_cons; [| now apply IH].
  intros Hin. apply Hfresh. apply in_map_iff in Hin.
  destruct Hin as [x [Hx Hkept]]. apply filter_In in Hkept.
  apply in_map_iff. exists x. tauto.
Qed.

Lemma NoDup_map_injective {A B : Type} (f : A -> B) (l : list A) (x y : A) :
  NoDup (map f l) -> In x l -> In y l -> f x = f y -> x = y.
Proof.
  induction l as [| a l IH]; simpl; [contradiction |].
  intros Hnd Hx Hy Hf. inversion Hnd as [| ? ? Hnotin Hnd']; subst.
  destruct Hx as [-> | Hx], Hy as [-> | Hy]; auto.
  - exfalso. apply Hnotin. rewrite Hf. now apply in_map.
  - exfalso. apply Hnotin. rewrite <- Hf. now apply in_map.
Qed.

Lemma compatible_candidates_length df rid r cfg :
  (List.length (compatible_candidates df rid r cfg)
   <= List.length (filter (fun t => negb (String.eqb (track_id t) rid)) df))%nat.
Proof.
  unfold_pipeline. split_switches;
    repeat first [apply Nat.le_refl
                 | eapply Nat.le_trans; [apply filter_length_le |]].
Qed.

Lemma compatible_candidates_NoDup df rid r cfg :
  NoDup (map track_id df) ->
  NoDup (map track_id (compatible_candidates df rid r cfg)).
Proof.
  intros Hnd. unfold_pipeline. split_switches;
    repeat apply filter_keeps_keys_distinct; assumption.
Qed.

Lemma compatible_relax (r t : Track) (cfg cfg' : Config) :
  relaxes cfg cfg' -> compatible r cfg t -> compatible r cfg' t.
Proof.
  intros (Htol & Hyear & Hdh & Hrel & Hkey & Hgen & Hsub)
         (Htempo & Hk & Hg & Hs & Hy).
  unfold compatible. repeat split.
  - unfold tempo_compatible in *. cbv zeta in *.
    rewrite Zle_Qle in Htol.
    set (w := inject_Z (bpm_tolerance cfg)) in *.
    set (w' := inject_Z (bpm_tolerance cfg')) in *.
    unfold Qdiv in *. change (/ 2)%Q with (1 # 2)%Q in *.
    destruct Htempo as [[H1 H2] | [Hon [[H1 H2] | [H1 H2]]]].
    + left. split; qlra.
    + right. split; [auto |]. left. split; qlra.
    + right. split; [auto |]. right. split; qlra.
  - unfold key_compatible in *. intros Hon.
    destruct (Hk (Hkey Hon)) as [Heq | [Hr Heq]]; auto.
  - auto.
  - auto.
  - unfold year_compatible in *. lia.
  - unfold year_compatible in *. lia.
Qed.

Lemma in_combine_exists_l {A B : Type} (l1 : list A) (l2 : list B) (y : B) :
  List.length l1 = List.length l2 -> In y l2 -> exists x, In (x, y) (combine l1 l2).
Proof.
  revert l2. induction l1 as [| a l1 IH]; intros [| b l2] Hlen Hin;
    simpl in *; try discriminate; try contradiction.
  destruct Hin as [-> | Hin].
  - exists a. now left.
  - destruct (IH l2) as [x Hx]; [now injection Hlen | assumption |].
    exists x. now right.
Qed.

Lemma calculate_similarity_row df ref r :
  In r (_calculate_similarity df ref) ->
  In (row r) df
  /\ In (distance r) (distances df ref)
  /\ similarity r = similarity_of (series_Rmax (distances df ref)) (distance r).
Proof.
  unfold _calculate_similarity. rewrite in_map_iff.
  intros [[t d] [<- Hin]]. simpl.
  split; [now apply in_combine_l in Hin |].
  split; [now apply in_combine_r in Hin | reflexivity].
Qed.

Lemma calculate_similarity_has_distance df ref d :
  In d (distances df ref) ->
  exists r, In r (_calculate_similarity df ref) /\ distance r = d.
Proof.
  intros Hd.
  destruct (in_combine_exists_l df (distances df ref) d) as [t Ht];
    [symmetry; apply distances_length | assumption |].
  exists (mkScored t d (similarity_of (series_Rmax (distances df ref)) d)).
  split; [| reflexivity].
  unfold _calculate_similarity. rewrite in_map_iff. now exists (t, d).
Qed.

Lemma fold_Rmax_in (l : list R) (x : R) : In (fold_left Rmax l x) (x :: l).
Proof.
  revert x. induction l as [| z zs IH]; intros x; simpl; [now left |].
  destruct (IH (Rmax x z)) as [Hin | Hin]; [| now right; right].
  rewrite <- Hin. unfold Rmax. destruct (Rle_dec x z); auto.
Qed.

Lemma series_Rmax_in (l : list R) (m : R) : series_Rmax l = Some m -> In m l.
Proof.
  destruct l as [| x xs]; simpl; [discriminate |]. intros [= <-].
  apply fold_Rmax_in.
Qed.

Lemma similarity_of_antimonotone (l : list R) (d1 d2 : R) :
  In d1 l -> In d2 l -> (0 <= d2)%R ->
  (similarity_of (series_Rmax l) d2 <= similarity_of (series_Rmax l) d1)%R ->
  (d1 <= d2)%R.
Proof.
  intros H1 H2 Hpos. destruct (series_Rmax_ge l d1 H1) as [m [-> Hm]].
  unfold similarity_of. destruct (Rlt_dec 0 m) as [Hlt | Hle]; [| rlra].
  intros Hsim. unfold Rdiv in Hsim.
  assert (Hinv : (0 < / m)%R) by now apply Rinv_0_lt_compat.
  apply Rmult_le_reg_r with (/ m)%R; [assumption | rlra].
Qed.

Lemma StronglySorted_weaken {A : Type} (P Q : A -> A -> Prop) (l : list A) :
  (forall a b, In a l -> In b l -> P a b -> Q a b) ->
  StronglySorted P l -> StronglySorted Q l.
Proof.
  intros Himp Hs. induction Hs as [| a l Hs IH Hall]; constructor.
  - apply IH. intros x y Hx Hy. apply Himp; now right.
  - rewrite Forall_forall in *. intros b Hb.
    apply Himp; [now left | now right | now apply Hall].
Qed.

Lemma similarity_of_monotone (l : list R) (d1 d2 : R) :
  In d1 l -> (d1 <= d2)%R ->
  (similarity_of (series_Rmax l) d2 <= similarity_of (series_Rmax l) d1)%R.
Proof.
  intros H1 Hle. destruct (series_Rmax_ge l d1 H1) as [m [-> Hm]].
  unfold similarity_of. destruct (Rlt_dec 0 m) as [Hlt | _]; [| rlra].
  assert (Hinv : (0 < / m)%R) by now apply Rinv_0_lt_compat.
  unfold Rdiv. apply Rplus_le_compat_l, Ropp_le_contravar.
  apply Rmult_le_compat_r; [rlra | exact Hle].
Qed.

Lemma StronglySorted_nth_error {A : Type} (P : A -> A -> Prop) (l : list A) :
  StronglySorted P l ->
  forall i j a b, (i < j)%nat ->
                  nth_error l i = Some a -> nth_error l j = Some b -> P a b.
Proof.
  induction 1 as [| x l _ IH Hall]; intros i j a b Hij Hi Hj.
  - destruct i; discriminate.
  - destruct j as [| j]; [lia |]. simpl in Hj. destruct i as [| i]; simpl in Hi.
    + injection Hi as <-. rewrite Forall_forall in Hall.
      apply Hall. now apply nth_error_In with j.
    + apply (IH i j); [lia | assumption | assumption].
Qed.

(** X8: in the frame [_calculate_similarity] returns, when the largest
    distance is positive a row scores 0 exactly when it is at the largest
    distance, a row at distance 0 scores 1, and some row scores 0; in
    particular a single candidate that differs from the reference scores
    0. *)
Theorem farthest_scores_zero (df : list Track) (ref : Track) (m : R) :
  series_Rmax (distances df ref) = Some m ->
  (0 < m)%R ->
  (exists r, In r (_calculate_similarity df ref) /\ similarity r = 0%R)
  /\ (forall r, In r (_calculate_similarity df ref) ->
                (similarity r = 0%R <-> distance r = m)
                /\ (distance r = 0%R -> similarity r = 1%R))
  /\ (forall c r, df = [c] -> _calculate_similarity df ref = [r] ->
                  similarity r = 0%R).
Proof.
  intros Hmax Hpos.
  assert (Hinv : (0 < / m)%R) by now apply Rinv_0_lt_compat.
  assert (Hone : (m * / m = 1)%R) by (apply Rinv_r; rlra).
  assert (Hrow : forall r, In r (_calculate_similarity df ref) ->
                   similarity r = (1 - distance r * / m)%R).
  { intros r Hr. apply calculate_similarity_row in Hr.
    destruct Hr as (_ & _ & ->). rewrite Hmax. unfold similarity_of.
    destruct (Rlt_dec 0 m); [reflexivity | contradiction]. }
  assert (Hzero : forall r, In r (_calculate_similarity df ref) ->
                    (similarity r = 0%R <-> distance r = m)).
  { intros r Hr. rewrite (Hrow r Hr). split; intros H.
    - apply Rmult_eq_reg_r with (/ m)%R; rlra.
    - rewrite H. rlra. }
  assert (Hex : exists r, In r (_calculate_similarity df ref) /\ similarity r = 0%R).
  { destruct (calculate_similarity_has_distance df ref m (series_Rmax_in _ _ Hmax))
      as [r [Hr Hd]].
    exists r. split; [assumption |]. now apply Hzero. }
  split; [exact Hex |]. split.
  - intros r Hr. split; [now apply Hzero |].
    rewrite (Hrow r Hr). intros H. rewrite H. rlra.
  - intros c r _ Hsole. destruct Hex as [r' [Hr' Hsim]].
    rewrite Hsole in Hr'. destruct Hr' as [<- | []]. exact Hsim.
Qed.

Lemma bright_track_distance :
  distances [bright_track "c" 120 2000] (demo_track "ref" 120 2000)
  = [sqrt (Q2R (sum_squared_diffs (fun _ => 0%Q) 0%Q (demo_track "ref" 120 2000)
                                  (bright_track "c" 120 2000)))].
Proof. reflexivity. Qed.

Lemma bright_track_distance_pos :
  (0 < sqrt (Q2R (sum_squared_diffs (fun _ => 0%Q) 0%Q (demo_track "ref" 120 2000)
                                    (bright_track "c" 120 2000))))%R.
Proof.
  apply sqrt_lt_R0. rewrite <- (Q2R_zero 0%Q (Qeq_refl 0)).
  apply Qlt_Rlt. reflexivity.
Qed.

Lemma farthest_scores_zero_witness :
  exists r,
    In r (_calculate_similarity [bright_track "c" 120 2000]
                                (demo_track "ref" 120 2000))
    /\ similarity r = 0%R.
Proof.
  apply (farthest_scores_zero
           [bright_track "c" 120 2000] (demo_track "ref" 120 2000)
           (sqrt (Q2R (sum_squared_diffs (fun _ => 0%Q) 0%Q
                                         (demo_track "ref" 120 2000)
                                         (bright_track "c" 120 2000))))).
  - rewrite bright_track_distance. reflexivity.
  - exact bright_track_distance_pos.
Defined.

(** X9: every row of the frame [_calculate_similarity] is given gets a
    normalised year between 0 and 1; when the years differ, a row of the
    earliest year gets 0 and a row of the latest year gets 1. *)
Theorem normalized_year_in_unit_interval (df : list Track) (ref t : Track) :
  In t df ->
  (0 <= fst (normalize_year df ref) t <= 1)%Q
  /\ (forall lo hi,
         series_min (map year df) = Some lo ->
         series_max (map year df) = Some hi ->
         (lo < hi)%Z ->
         (year t = lo -> fst (normalize_year df ref) t == 0)%Q
         /\ (year t = hi -> fst (normalize_year df ref) t == 1)%Q).
Proof.
  intros Hin. unfold normalize_year.
  destruct (series_min (map year df)) as [lo |] eqn:Hmin;
    [| split; [simpl; split; discriminate | discriminate]].
  destruct (series_max (map year df)) as [hi |] eqn:Hmax;
    [| split; [simpl; split; discriminate | discriminate]].
  apply series_min_spec in Hmin. apply series_max_spec in Hmax.
  destruct Hmin as [_ Hlo]. destruct Hmax as [_ Hhi].
  assert (Hy : (lo <= year t <= hi)%Z)
    by (split; [apply Hlo | apply Hhi]; now apply in_map).
  cbv zeta. destruct (hi - lo >? 0)%Z eqn:Hrange.
  - apply Z.gtb_lt in Hrange. simpl fst.
    assert (Hpos : (0 < inject_Z (hi - lo))%Q)
      by (change 0%Q with (inject_Z 0); rewrite <- Zlt_Qlt; lia).
    split.
    + split.
      * apply Qle_shift_div_l; [assumption |]. rewrite Qmult_0_l.
        change 0%Q with (inject_Z 0). rewrite <- Zle_Qle. lia.
      * apply Qle_shift_div_r; [assumption |]. rewrite Qmult_1_l.
        rewrite <- Zle_Qle. lia.
    + intros lo' hi' [= <-] [= <-] _. split; intros ->.
      * rewrite Z.sub_diag. unfold Qdiv. apply Qmult_0_l.
      * unfold Qdiv. apply Qmult_inv_r. intros Heq. rewrite Heq in Hpos.
        now apply Qlt_irrefl in Hpos.
  - simpl fst. split; [split; discriminate |].
    intros lo' hi' [= <-] [= <-] Hlt. rewrite Z.gtb_ltb in Hrange.
    apply Z.ltb_ge in Hrange. lia.
Qed.

Lemma normalized_year_in_unit_interval_witness :
  (0 <= fst (normalize_year [demo_track "old" 120 1990; demo_track "a" 120 2000]
                            (demo_track "ref" 120 2005))
            (demo_track "old" 120 1990) <= 1)%Q.
Proof.
  apply (normalized_year_in_unit_interval
           [demo_track "old" 120 1990; demo_track "a" 120 2000]
           (demo_track "ref" 120 2005) (demo_track "old" 120 1990)).
  simpl. auto.
Defined.

(** ** More on the query *)

Section RankedQueryFacts.

Variable sort_values : list Scored -> list Scored.
Hypothesis sort_values_perm : forall l, Permutation l (sort_values l).
Hypothesis sort_values_desc : forall l, descending (sort_values l).

(** X10: when the year bounds stay within int32, the ids the query returns
    are exactly the ids of the catalog rows, other than the reference id,
    that each filter keeps when it is given that row alone, with respect to
    the first row carrying the reference id: [_filter_by_bpm],
    [_filter_by_key], the genre and subgenre masks when they are switched
    on, and the year mask. *)
Theorem result_is_the_rows_each_filter_keeps df rid cfg ref rest id :
  filter (fun t => String.eqb (track_id t) rid) df = ref :: rest ->
  year_bounds_fit ref cfg ->
  In id (result_ids (find_compatible_songs sort_values df rid cfg)) <->
  exists t,
    In t df /\ track_id t = id /\ id <> rid
    /\ In t (_filter_by_bpm [t] ref (bpm_tolerance cfg) (include_double_half cfg))
    /\ In t (_filter_by_key [t] ref (match_key cfg) (include_relative cfg))
    /\ (match_genre cfg = true -> playlist_genre t = playlist_genre ref)
    /\ (match_subgenre cfg = true -> playlist_subgenre t = playlist_subgenre ref)
    /\ (year ref - year_tolerance cfg <= year t <= year ref + year_tolerance cfg)%Z.
Proof.
  intros Hf _. rewrite (result_ids_spec sort_values sort_values_perm).
  assert (Hrow : forall t,
             compatible ref cfg t <->
             In t (_filter_by_bpm [t] ref (bpm_tolerance cfg) (include_double_half cfg))
             /\ In t (_filter_by_key [t] ref (match_key cfg) (include_relative cfg))
             /\ (match_genre cfg = true -> playlist_genre t = playlist_genre ref)
             /\ (match_subgenre cfg = true ->
                 playlist_subgenre t = playlist_subgenre ref)
             /\ (year ref - year_tolerance cfg <= year t
                 <= year ref + year_tolerance cfg)%Z).
  { intros t. rewrite In_filter_by_bpm, In_filter_by_key.
    unfold compatible, year_compatible. simpl In. tauto. }
  split.
  - intros (ref' & rest' & t & Hf' & Hin & Hid).
    rewrite Hf in Hf'. injection Hf' as <- <-.
    apply In_compatible_candidates in Hin. exists t. subst id.
    rewrite <- Hrow. tauto.
  - intros (t & Hin & Hid & Hne & Hc). exists ref, rest, t.
    split; [assumption |]. split; [| assumption].
    apply In_compatible_candidates. subst id. rewrite Hrow. tauto.
Qed.

(** X11: relaxing the configuration (larger tolerances, double/half or
    relative keys switched on, key, genre or subgenre matching switched off)
    never removes a track id from the result, as long as the year bounds of
    both configurations stay within int32 for the rows carrying the
    reference id. *)
Theorem relaxing_never_removes df rid cfg cfg' :
  relaxes cfg cfg' ->
  (forall ref, In ref df -> track_id ref = rid ->
               year_bounds_fit ref cfg /\ year_bounds_fit ref cfg') ->
  incl (result_ids (find_compatible_songs sort_values df rid cfg))
       (result_ids (find_compatible_songs sort_values df rid cfg')).
Proof.
  intros Hrelax _ id. rewrite !(result_ids_spec sort_values sort_values_perm).
  intros (ref & rest & t & Hf & Hin & Hid). exists ref, rest, t.
  split; [assumption |]. split; [| assumption].
  apply In_compatible_candidates in Hin. apply In_compatible_candidates.
  destruct Hin as (Hdf & Hne & Hc).
  split; [assumption |]. split; [assumption |].
  now apply (compatible_relax ref t cfg cfg').
Qed.

(** X12: the returned frame has fewer rows than the catalog, each of its
    rows is a catalog row, and when the catalog's track ids are distinct so
    are the ids of the result. *)
Theorem result_rows_come_from_catalog df rid cfg res :
  find_compatible_songs sort_values df rid cfg = Some res ->
  (List.length res < List.length df)%nat
  /\ (forall r, In r res -> In (row r) df)
  /\ (NoDup (map track_id df) ->
      NoDup (result_ids (find_compatible_songs sort_values df rid cfg))).
Proof.
  unfold find_compatible_songs.
  destruct (filter (fun t => String.eqb (track_id t) rid) df) as [| ref rest] eqn:Hf;
    [discriminate |].
  intros [= <-].
  pose proof (ranked_rows_perm sort_values sort_values_perm df rid cfg ref) as Hperm.
  split; [| split].
  - rewrite <- (List.length_map row), <- (Permutation_length Hperm).
    pose proof (compatible_candidates_length df rid ref cfg) as Hlen.
    pose proof (filter_length (fun t => String.eqb (track_id t) rid) df) as Hsum.
    rewrite Hf in Hsum. simpl in Hsum. lia.
  - intros r Hr. apply (in_map row) in Hr.
    apply (Permutation_in _ (Permutation_sym Hperm)) in Hr.
    now apply In_compatible_candidates in Hr.
  - intros Hnd. cbv zeta. unfold result_ids. rewrite <- (map_map row track_id).
    apply (Permutation_NoDup (Permutation_map track_id Hperm)).
    now apply compatible_candidates_NoDup.
Qed.

(** X13: in the returned frame a row with a strictly higher score is
    strictly nearer to the reference; and of two rows the one placed first
    scores at least as much, and is at most as far unless the two scores
    are equal. *)
Theorem higher_score_is_nearer df rid cfg res :
  find_compatible_songs sort_values df rid cfg = Some res ->
  (forall a b, In a res -> In b res ->
               (similarity b < similarity a)%R -> (distance a < distance b)%R)
  /\ (forall i j a b,
        (i < j)%nat -> nth_error res i = Some a -> nth_error res j = Some b ->
        (similarity b <= similarity a)%R
        /\ ((distance a <= distance b)%R \/ similarity a = similarity b)).
Proof.
  unfold find_compatible_songs.
  destruct (filter (fun t => String.eqb (track_id t) rid) df) as [| ref rest];
    [discriminate |].
  intros [= <-]. cbv zeta.
  set (cands := compatible_candidates df rid ref cfg).
  assert (Hnear : forall a b,
             In a (sort_values (_calculate_similarity cands ref)) ->
             In b (sort_values (_calculate_similarity cands ref)) ->
             (similarity b < similarity a)%R -> (distance a < distance b)%R).
  { intros a b Ha Hb Hsim.
    apply (Permutation_in _ (Permutation_sym (sort_values_perm _))) in Ha.
    apply (Permutation_in _ (Permutation_sym (sort_values_perm _))) in Hb.
    apply calculate_similarity_row in Ha. apply calculate_similarity_row in Hb.
    destruct Ha as (_ & Hda & Hsa). destruct Hb as (_ & Hdb & Hsb).
    rewrite Hsa, Hsb in Hsim.
    destruct (Rlt_le_dec (distance a) (distance b)) as [Hlt | Hle];
      [exact Hlt | exfalso].
    apply (Rlt_not_le _ _ Hsim).
    apply (similarity_of_monotone (distances cands ref)); auto. }
  split; [exact Hnear |].
  intros i j a b Hij Hi Hj.
  pose proof (StronglySorted_nth_error _ _ (sort_values_desc _) i j a b Hij Hi Hj)
    as Hdesc.
  split; [exact Hdesc |].
  destruct (Rle_lt_dec (similarity a) (similarity b)) as [Hle | Hlt].
  - right. now apply Rle_antisym.
  - left. apply Rlt_le. apply Hnear; [| | exact Hlt].
    + now apply nth_error_In with i.
    + now apply nth_error_In with j.
Qed.

End RankedQueryFacts.

(** ** Which filters are mutual *)

Ltac enum_pitch k :=
  let H := fresh "Hcases" in
  assert (H : (k = 0 \/ k = 1 \/ k = 2 \/ k = 3 \/ k = 4 \/ k = 5 \/ k = 6
               \/ k = 7 \/ k = 8 \/ k = 9 \/ k = 10 \/ k = 11)%Z) by lia;
  repeat (destruct H as [-> | H]); [.. | subst k].

Lemma key_label_injective (k m k' m' : Z) :
  (0 <= k < 12)%Z -> (m = 0 \/ m = 1)%Z ->
  (0 <= k' < 12)%Z -> (m' = 0 \/ m' = 1)%Z ->
  key_label k m = key_label k' m' -> k = k' /\ m = m'.
Proof.
  intros Hk Hm Hk' Hm'.
  destruct Hm as [-> | ->], Hm' as [-> | ->];
    enum_pitch k; enum_pitch k'; clear;
    intros Heq; first [split; reflexivity | discriminate Heq].
Qed.

Lemma relative_key_valid (k m : Z) :
  (0 <= fst (relative_key k m) < 12)%Z
  /\ (snd (relative_key k m) = 0 \/ snd (relative_key k m) = 1)%Z.
Proof.
  split; [apply relative_key_in_range |].
  unfold relative_key. destruct (m =? 1)%Z; simpl; auto.
Qed.

Lemma relative_key_twice (k m : Z) :
  (0 <= k < 12)%Z -> (m = 0 \/ m = 1)%Z ->
  relative_key (fst (relative_key k m)) (snd (relative_key k m)) = (k, m).
Proof.
  intros Hk [-> | ->]; enum_pitch k; reflexivity.
Qed.

Lemma key_compatible_sym (a b : Track) (mk rel : bool) :
  (mk = true -> rel = true -> valid_key a /\ valid_key b) ->
  key_compatible a mk rel b -> key_compatible b mk rel a.
Proof.
  unfold key_compatible. intros Hvalid Hab Hon.
  destruct (Hab Hon) as [Heq | [Hrel Heq]]; [now left | right].
  split; [assumption |].
  destruct (Hvalid Hon Hrel) as [[Hka Hma] [Hkb Hmb]].
  destruct (relative_key_valid (key a) (mode a)) as [Hk' Hm'].
  unfold full_key in Heq.
  destruct (key_label_injective _ _ _ _ Hkb Hmb Hk' Hm' Heq) as [-> ->].
  rewrite (relative_key_twice (key a) (mode a) Hka Hma). reflexivity.
Qed.

(** X14: the key filter is mutual on rows with a valid key: with or without
    relative keys, row [b] passes it for reference [a] exactly when [a]
    passes it for reference [b].  The tempo filter is not mutual: with
    double/half matching, at tolerance 5 tempo 250 passes for reference 120
    but 120 does not pass for reference 250; and without it 128.002 passes
    for reference 123.002 (the rounded sum is 128.002) but 123.002 does not
    pass for reference 128.002 (the rounded difference is above it). *)
Theorem key_filter_is_mutual (a b : Track) (mk rel : bool) :
  valid_key a -> valid_key b ->
  (In b (_filter_by_key [b] a mk rel) <-> In a (_filter_by_key [a] b mk rel))
  /\ (Binary64._filter_by_bpm [Binary64.row "b" 250 1] (Binary64.row "a" 120 1)
                              5 true
      = [Binary64.row "b" 250 1]
      /\ Binary64._filter_by_bpm [Binary64.row "a" 120 1] (Binary64.row "b" 250 1)
                                 5 true
         = [])
  /\ (Binary64._filter_by_bpm [Binary64.row "b" 128002 1000]
                              (Binary64.row "a" 123002 1000) 5 false
      = [Binary64.row "b" 128002 1000]
      /\ Binary64._filter_by_bpm [Binary64.row "a" 123002 1000]
                                 (Binary64.row "b" 128002 1000) 5 false
         = []).
Proof.
  intros Ha Hb. split; [| split; split; vm_compute; reflexivity].
  rewrite !In_filter_by_key. simpl In.
  split; intros [_ Hkey]; (split; [now left |]);
    apply key_compatible_sym; auto.
Qed.

Lemma result_is_the_rows_each_filter_keeps_witness :
  In "old" (result_ids (find_compatible_songs insertion_sort_desc year_catalog
                          "ref" default_config))
  <-> exists t,
      In t year_catalog /\ track_id t = "old" /\ "old" <> "ref"
      /\ In t (_filter_by_bpm [t] (demo_track "ref" 120 2000) 5 false)
      /\ In t (_filter_by_key [t] (demo_track "ref" 120 2000) true false)
      /\ (false = true -> playlist_genre t = "pop")
      /\ (false = true -> playlist_subgenre t = "dance pop")
      /\ (2000 - 10 <= year t <= 2000 + 10)%Z.
Proof.
  apply (result_is_the_rows_each_filter_keeps
           insertion_sort_desc insertion_sort_desc_perm
           year_catalog "ref" default_config (demo_track "ref" 120 2000) [] "old").
  - reflexivity.
  - unfold year_bounds_fit, int32. simpl. lia.
Defined.

Lemma relaxing_never_removes_witness :
  incl (result_ids (find_compatible_songs insertion_sort_desc year_catalog "ref"
                      default_config))
       (result_ids (find_compatible_songs insertion_sort_desc year_catalog "ref"
                      (mkConfig 10 true false true false false 20))).
Proof.
  apply (relaxing_never_removes insertion_sort_desc insertion_sort_desc_perm
           year_catalog "ref" default_config
           (mkConfig 10 true false true false false 20)).
  - unfold relaxes. simpl. repeat split; try lia; intros; try discriminate; auto.
  - intros ref [<- | [<- | [<- | []]]] _; unfold year_bounds_fit, int32; simpl; lia.
Defined.

Lemma result_rows_come_from_catalog_witness :
  (List.length [mkScored (demo_track "a" 120 2000) 0 1;
                mkScored (demo_track "b" 120 2000) 0 1]
   < List.length tie_catalog)%nat.
Proof.
  apply (result_rows_come_from_catalog insertion_sort_desc insertion_sort_desc_perm
           tie_catalog "ref" default_config).
  exact tie_catalog_stable.
Defined.

Lemma higher_score_is_nearer_witness :
  (similarity (mkScored (demo_track "b" 120 2000) 0 1)
   <= similarity (mkScored (demo_track "a" 120 2000) 0 1))%R
  /\ ((distance (mkScored (demo_track "a" 120 2000) 0 1)
       <= distance (mkScored (demo_track "b" 120 2000) 0 1))%R
      \/ similarity (mkScored (demo_track "a" 120 2000) 0 1)
         = similarity (mkScored (demo_track "b" 120 2000) 0 1)).
Proof.
  apply (proj2 (higher_score_is_nearer
                  insertion_sort_desc insertion_sort_desc_perm
                  insertion_sort_desc_descending tie_catalog "ref" default_config
                  [mkScored (demo_track "a" 120 2000) 0 1;
                   mkScored (demo_track "b" 120 2000) 0 1]
                  tie_catalog_stable)
               0%nat 1%nat).
  - lia.
  - reflexivity.
  - reflexivity.
Defined.

Lemma key_filter_is_mutual_witness :
  In (mkTrack "b" 120 9 0 2000 "pop" "dance pop"
              (1#2) (1#2) (1#2) (1#2) (1#2) (1#2) (1#2))
     (_filter_by_key [mkTrack "b" 120 9 0 2000 "pop" "dance pop"
                              (1#2) (1#2) (1#2) (1#2) (1#2) (1#2) (1#2)]
                     (demo_track "a" 120 2000) true true)
  <-> In (demo_track "a" 120 2000)
         (_filter_by_key [demo_track "a" 120 2000]
                         (mkTrack "b" 120 9 0 2000 "pop" "dance pop"
                                  (1#2) (1#2) (1#2) (1#2) (1#2) (1#2) (1#2))
                         true true).
Proof.
  apply (key_filter_is_mutual
           (demo_track "a" 120 2000)
           (mkTrack "b" 120 9 0 2000 "pop" "dance pop"
                    (1#2) (1#2) (1#2) (1#2) (1#2) (1#2) (1#2))
           true true).
  - unfold valid_key. simpl. lia.
  - unfold valid_key. simpl. lia.
Defined.

(** * Cleaning *)

Lemma In_dropna_critical (df : list CsvRow) (r : CsvRow) :
  In r (dropna_critical df) <->
  In r df /\ csv_tempo r <> None /\ csv_key r <> None
  /\ csv_playlist_genre r <> None.
Proof.
  unfold dropna_critical. rewrite filter_In, negb_true_iff, !orb_false_iff.
  destruct (csv_tempo r), (csv_key r), (csv_playlist_genre r); simpl;
    intuition congruence.
Qed.

Lemma In_drop_duplicates (df : list CsvRow) (r : CsvRow) :
  In r (drop_duplicates df) <->
  exists before after,
    df = (before ++ r :: after)%list
    /\ forall x, In x before -> csv_track_id x <> csv_track_id r.
Proof.
  induction df as [| a df IH]; simpl.
  - split; [contradiction |]. intros (before & after & Heq & _).
    destruct before; discriminate.
  - rewrite filter_In, negb_true_iff, String.eqb_neq, IH. split.
    + intros [<- | [(before & after & -> & Hbefore) Hne]].
      * exists [], df. split; [reflexivity | contradiction].
      * exists (a :: before), after. split; [reflexivity |].
        intros x [<- | Hx]; auto.
    + intros (before & after & Heq & Hbefore).
      destruct before as [| b before]; simpl in Heq; injection Heq as -> ->.
      * now left.
      * right. split.
        -- exists before, after. split; [reflexivity |].
           intros x Hx. apply Hbefore. now right.
        -- apply Hbefore. now left.
Qed.

Lemma NoDup_drop_duplicates (df : list CsvRow) :
  NoDup (map csv_track_id (drop_duplicates df)).
Proof.
  induction df as [| a df IH]; simpl; constructor.
  - rewrite in_map_iff. intros [x [Hid Hin]].
    rewrite filter_In, negb_true_iff, String.eqb_neq in Hin.
    destruct Hin as [_ Hne]. congruence.
  - now apply filter_keeps_keys_distinct.
Qed.

Lemma filter_all_true {A : Type} (p : A -> bool) (l : list A) :
  (forall x, In x l -> p x = true) -> filter p l = l.
Proof.
  induction l as [| a l IH]; simpl; intros Hall; [reflexivity |].
  rewrite (Hall a (or_introl eq_refl)). f_equal. apply IH.
  intros x Hx. apply Hall. now right.
Qed.

Lemma drop_duplicates_distinct (df : list CsvRow) :
  NoDup (map csv_track_id df) -> drop_duplicates df = df.
Proof.
  induction df as [| a df IH]; simpl; intros Hnd; [reflexivity |].
  inversion Hnd as [| ? ? Hnotin Hnd']; subst.
  rewrite (IH Hnd'). f_equal. apply filter_all_true.
  intros x Hx. rewrite negb_true_iff, String.eqb_neq. intros Heq.
  apply Hnotin. rewrite Heq. now apply in_map.
Qed.

(** X15: after the two row-dropping steps of [_clean_data] the track ids are
    distinct; the rows kept are rows of the input with tempo, key and genre
    present; of the complete rows of an id the first is the one kept, so
    every id of a complete row survives; cleaning a cleaned frame changes
    nothing. *)
Theorem clean_data_rows (df : list CsvRow) :
  NoDup (map csv_track_id (_clean_data df))
  /\ (forall r, In r (_clean_data df) ->
                In r df /\ csv_tempo r <> None /\ csv_key r <> None
                /\ csv_playlist_genre r <> None)
  /\ (forall r, In r (_clean_data df) <->
                exists before after,
                  dropna_critical df = (before ++ r :: after)%list
                  /\ forall x, In x before -> csv_track_id x <> csv_track_id r)
  /\ (forall r, In r (dropna_critical df) ->
                In (csv_track_id r) (map csv_track_id (_clean_data df)))
  /\ _clean_data (_clean_data df) = _clean_data df.
Proof.
  assert (Hsound : forall r, In r (_clean_data df) -> In r (dropna_critical df)).
  { intros r Hr. apply In_drop_duplicates in Hr.
    destruct Hr as (before & after & -> & _). apply in_or_app. right. now left. }
  split; [apply NoDup_drop_duplicates |].
  split; [intros r Hr; now apply In_dropna_critical, Hsound |].
  split; [intros r; apply In_drop_duplicates |].
  split.
  - intros r Hr.
    destruct (filter (fun x => String.eqb (csv_track_id x) (csv_track_id r))
                     (dropna_critical df)) as [| first rest] eqn:Hf.
    + rewrite filter_nil_iff in Hf. specialize (Hf r Hr).
      now rewrite String.eqb_refl in Hf.
    + apply filter_head_spec in Hf.
      destruct Hf as (_ & Hid & before & after & Heq & Hbefore).
      apply String.eqb_eq in Hid. rewrite <- Hid. apply in_map.
      apply In_drop_duplicates. exists before, after. split; [assumption |].
      intros x Hx. specialize (Hbefore x Hx). apply String.eqb_neq in Hbefore.
      congruence.
  - unfold _clean_data at 1.
    replace (dropna_critical (_clean_data df)) with (_clean_data df).
    + apply drop_duplicates_distinct, NoDup_drop_duplicates.
    + symmetry. apply filter_all_true. intros r Hr.
      apply Hsound in Hr. unfold dropna_critical in Hr.
      now apply filter_In in Hr.
Qed.

Lemma clean_data_rows_witness :
  In (mkCsvRow "x" (Some 120%Q) (Some 0%Z) (Some "pop"))
     [mkCsvRow "y" None (Some 1%Z) (Some "rock");
      mkCsvRow "x" (Some 120%Q) (Some 0%Z) (Some "pop");
      mkCsvRow "x" (Some 90%Q) (Some 5%Z) (Some "pop")]
  /\ csv_tempo (mkCsvRow "x" (Some 120%Q) (Some 0%Z) (Some "pop")) <> None.
Proof.
  destruct (clean_data_rows
              [mkCsvRow "y" None (Some 1%Z) (Some "rock");
               mkCsvRow "x" (Some 120%Q) (Some 0%Z) (Some "pop");
               mkCsvRow "x" (Some 90%Q) (Some 5%Z) (Some "pop")])
    as (_ & Hsound & _).
  destruct (Hsound (mkCsvRow "x" (Some 120%Q) (Some 0%Z) (Some "pop")))
    as (Hin & Htempo & _).
  - simpl. auto.
  - split; assumption.
Defined.

(** * The dashboard *)

Lemma get_track_by_id_found (df : list Song) (r0 : Song) :
  In r0 df ->
  exists r, get_track_by_id df (track_id (track r0)) = Some r
            /\ In r df /\ track_id (track r) = track_id (track r0).
Proof.
  intros Hin. unfold get_track_by_id.
  destruct (filter (fun r => String.eqb (track_id (track r)) (track_id (track r0))) df)
    as [| first rest] eqn:Hf.
  - rewrite filter_nil_iff in Hf. specialize (Hf r0 Hin).
    now rewrite String.eqb_refl in Hf.
  - apply filter_head_spec in Hf. destruct Hf as (Hfirst & Hid & _).
    apply String.eqb_eq in Hid. now exists first.
Qed.

Lemma find_some_iff_lookup (sort_values : list Scored -> list Scored)
    (df : list Song) (id : string) (cfg : Config) :
  find_compatible_songs sort_values (map track df) id cfg = None
  <-> get_track_by_id df id = None.
Proof.
  unfold get_track_by_id, find_compatible_songs. rewrite filter_map_track.
  destruct (filter (fun r => String.eqb (track_id (track r)) id) df); simpl;
    split; intros; try reflexivity; discriminate.
Qed.

Lemma select_sets_both (sort_values : list Scored -> list Scored)
    (df : list Song) (song_search : string) (cfg : Config) :
  let '(tid, ref, filtered) := Explorer.select sort_values df song_search cfg in
  ref = None <-> filtered = None.
Proof.
  unfold Explorer.select.
  destruct (get_track_id_from_search df (Some song_search)) as [id |];
    [destruct (truthy (Some id)) |]; try tauto.
  symmetry. apply find_some_iff_lookup.
Qed.

(** X16: what the dashboard selects from the search box.  The reference row
    and the result frame are set together or not at all; an empty search box
    selects nothing; a selected reference is a catalog row with a non-empty
    id, the one the frame was computed for, and some row with that id
    carries the search string. *)
Theorem select_is_consistent (sort_values : list Scored -> list Scored)
    (df : list Song) (song_search : string) (cfg : Config) :
  let '(tid, ref, filtered) := Explorer.select sort_values df song_search cfg in
  (ref = None <-> filtered = None)
  /\ (song_search = "" -> tid = None /\ ref = None)
  /\ (forall r,
         ref = Some r ->
         In r df
         /\ tid = Some (track_id (track r))
         /\ track_id (track r) <> ""
         /\ filtered = find_compatible_songs sort_values (map track df)
                         (track_id (track r)) cfg
         /\ exists r0, In r0 df /\ search_string r0 = Some song_search
                       /\ track_id (track r0) = track_id (track r)).
Proof.
  unfold Explorer.select.
  destruct (get_track_id_from_search df (Some song_search)) as [id |] eqn:Hget.
  - assert (Hs : song_search <> "").
    { intros ->. discriminate Hget. }
    destruct (proj2 (search_resolves_to_first_row df song_search Hs) id Hget)
      as (before & r0 & after & Hdf & Hstr & Hid & _).
    assert (Hr0 : In r0 df) by (rewrite Hdf; apply in_or_app; right; now left).
    destruct (get_track_by_id_found df r0 Hr0) as (r & Hlook & Hr & Hrid).
    rewrite Hid in Hlook, Hrid.
    destruct (truthy (Some id)) eqn:Htruthy.
    + rewrite Hlook. split; [| split].
      * split; [discriminate |]. intros Hnone.
        apply find_some_iff_lookup in Hnone. congruence.
      * intros ->. contradiction.
      * intros r' [= <-]. rewrite Hrid. repeat split; auto.
        -- now apply truthy_iff.
        -- exists r0. auto.
    + split; [tauto |]. split; [intros ->; contradiction | discriminate].
  - split; [tauto |]. split; [auto | discriminate].
Qed.

Lemma select_is_consistent_witness :
  Explorer.select insertion_sort_desc
    [mkSong (demo_track "ref" 120 2000) (Some "Song") (Some "Band")]
    "Song - Band" default_config
  = (Some "ref",
     Some (mkSong (demo_track "ref" 120 2000) (Some "Song") (Some "Band")),
     find_compatible_songs insertion_sort_desc
       (map track [mkSong (demo_track "ref" 120 2000) (Some "Song") (Some "Band")])
       "ref" default_config).
Proof.
  pose proof (select_is_consistent insertion_sort_desc
                [mkSong (demo_track "ref" 120 2000) (Some "Song") (Some "Band")]
                "Song - Band" default_config) as H.
  destruct (Explorer.select insertion_sort_desc
              [mkSong (demo_track "ref" 120 2000) (Some "Song") (Some "Band")]
              "Song - Band" default_config) as [[tid ref] filtered] eqn:Hsel.
  destruct H as (_ & _ & Href).
  assert (Hr : ref = Some (mkSong (demo_track "ref" 120 2000)
                                  (Some "Song") (Some "Band"))).
  { unfold Explorer.select in Hsel. simpl in Hsel. now injection Hsel as _ <- _. }
  destruct (Href _ Hr) as (_ & -> & _ & -> & _). now rewrite Hr.
Defined.

(** ** The preview player *)

Lemma len_pos (rows : list Scored) :
  (Explorer.len rows =? 0)%Z = false <-> rows <> [].
Proof.
  unfold Explorer.len. destruct rows as [| a rows].
  - simpl. split; [discriminate | intros H; now elim H].
  - split; [intros _; discriminate | intros _].
    apply Z.eqb_neq. simpl List.length. lia.
Qed.

Lemma clamp_range (n i : Z) : (1 <= n)%Z -> (0 <= clamp n i < n)%Z.
Proof. unfold clamp. lia. Qed.

Lemma clamp_fixed (n i : Z) : (0 <= i < n)%Z -> clamp n i = i.
Proof. unfold clamp. lia. Qed.

(** What [update_audio_player] leaves when the frame has rows. *)
Lemma update_audio_player_rows sort_values df s cfg tid ref rows st :
  Explorer.select sort_values df s cfg = (tid, ref, Some rows) ->
  rows <> [] ->
  Explorer.update_audio_player sort_values df s cfg st
  = Explorer.mkState
      (clamp (Explorer.len rows) (Explorer.current_song_index st))
      tid ref (Some rows)
      (nth_error rows
         (Z.to_nat (clamp (Explorer.len rows) (Explorer.current_song_index st))))
      (clamp (Explorer.len rows) (Explorer.current_song_index st) =? 0)%Z
      (clamp (Explorer.len rows) (Explorer.current_song_index st)
       >=? Explorer.len rows - 1)%Z.
Proof.
  intros Hsel Hrows. unfold Explorer.update_audio_player. rewrite Hsel.
  rewrite (proj2 (len_pos rows) Hrows). cbv zeta.
  assert (Hn : (1 <= Explorer.len rows)%Z).
  { apply len_pos in Hrows. unfold Explorer.len in *. lia. }
  set (i := Explorer.current_song_index st).
  assert (Hclamp : (if ((if (i >=? Explorer.len rows)%Z
                         then (Explorer.len rows - 1)%Z else i) <? 0)%Z
                    then 0%Z
                    else if (i >=? Explorer.len rows)%Z
                         then (Explorer.len rows - 1)%Z else i)
                   = clamp (Explorer.len rows) i).
  { unfold clamp. destruct (i >=? Explorer.len rows)%Z eqn:H1;
      [rewrite Z.geb_le in H1 | rewrite Z.geb_leb, Z.leb_gt in H1].
    - destruct (Explorer.len rows - 1 <? 0)%Z eqn:H2;
        [apply Z.ltb_lt in H2 | apply Z.ltb_ge in H2]; lia.
    - destruct (i <? 0)%Z eqn:H2;
        [apply Z.ltb_lt in H2 | apply Z.ltb_ge in H2]; lia. }
  rewrite Hclamp. reflexivity.
Qed.

Lemma update_audio_player_no_rows sort_values df s cfg tid ref filtered st :
  Explorer.select sort_values df s cfg = (tid, ref, filtered) ->
  filtered = None \/ filtered = Some [] ->
  Explorer.update_audio_player sort_values df s cfg st
  = Explorer.mkState (Explorer.current_song_index st) tid ref filtered
                     None true true.
Proof.
  intros Hsel Hnone. unfold Explorer.update_audio_player. rewrite Hsel.
  destruct Hnone as [-> | ->]; reflexivity.
Qed.

Lemma nth_error_in_range {A : Type} (l : list A) (i : Z) :
  (0 <= i < Z.of_nat (List.length l))%Z -> nth_error l (Z.to_nat i) <> None.
Proof. intros Hi. apply nth_error_Some. lia. Qed.

(** X17: after [update_audio_player], if the result frame has rows the
    index lies within the frame (the old index clamped to it), the player
    holds the row at that index, the Previous button is disabled exactly at
    the first row and the Next button exactly at the last, and a reference
    row is selected; otherwise the player is cleared, both buttons are
    disabled and the index is left as it was. *)
Theorem update_audio_player_post (sort_values : list Scored -> list Scored)
    (df : list Song) (song_search : string) (cfg : Config) (st : Explorer.State) :
  let st' := Explorer.update_audio_player sort_values df song_search cfg st in
  match Explorer.filtered_df st' with
  | Some (first :: more) =>
      let rows := first :: more in
      (0 <= Explorer.current_song_index st' < Explorer.len rows)%Z
      /\ Explorer.current_song_index st'
         = clamp (Explorer.len rows) (Explorer.current_song_index st)
      /\ Explorer.now_playing st'
         = nth_error rows (Z.to_nat (Explorer.current_song_index st'))
      /\ Explorer.now_playing st' <> None
      /\ (Explorer.prev_disabled st' = true
          <-> Explorer.current_song_index st' = 0%Z)
      /\ (Explorer.next_disabled st' = true
          <-> Explorer.current_song_index st' = (Explorer.len rows - 1)%Z)
      /\ Explorer.selected_ref st' <> None
  | _ =>
      Explorer.now_playing st' = None
      /\ Explorer.prev_disabled st' = true
      /\ Explorer.next_disabled st' = true
      /\ Explorer.current_song_index st' = Explorer.current_song_index st
  end.
Proof.
  cbv zeta.
  pose proof (select_sets_both sort_values df song_search cfg) as Hboth.
  destruct (Explorer.select sort_values df song_search cfg)
    as [[tid ref] filtered] eqn:Hsel.
  destruct filtered as [[| first more] |].
  - rewrite (update_audio_player_no_rows _ _ _ _ _ _ _ st Hsel); simpl; auto.
  - assert (Hrows : first :: more <> []) by discriminate.
    rewrite (update_audio_player_rows _ _ _ _ _ _ _ st Hsel Hrows).
    cbn [Explorer.filtered_df Explorer.current_song_index Explorer.now_playing
         Explorer.prev_disabled Explorer.next_disabled Explorer.selected_ref].
    assert (Hn : (1 <= Explorer.len (first :: more))%Z).
    { unfold Explorer.len. simpl List.length. lia. }
    pose proof (clamp_range (Explorer.len (first :: more))
                  (Explorer.current_song_index st) Hn) as Hc.
    split; [exact Hc |]. split; [reflexivity |]. split; [reflexivity |].
    split; [apply nth_error_in_range; exact Hc |].
    split; [apply Z.eqb_eq |].
    split.
    + rewrite Z.geb_le. lia.
    + intros Href. apply Hboth in Href. discriminate.
  - rewrite (update_audio_player_no_rows _ _ _ _ _ _ _ st Hsel); simpl; auto.
Qed.

Ltac split_comparisons :=
  repeat match goal with
         | |- context [(?a >? ?b)%Z] => rewrite (Z.gtb_ltb a b)
         | |- context [(?a <? ?b)%Z] => destruct (Z.ltb_spec a b)
         end.

(** X18: running [update_audio_player] again, with the widgets unchanged,
    changes nothing: the clamped index and the widget state it left are
    stable. *)
Theorem update_audio_player_idempotent (sort_values : list Scored -> list Scored)
    (df : list Song) (song_search : string) (cfg : Config) (st : Explorer.State) :
  Explorer.update_audio_player sort_values df song_search cfg
    (Explorer.update_audio_player sort_values df song_search cfg st)
  = Explorer.update_audio_player sort_values df song_search cfg st.
Proof.
  destruct (Explorer.select sort_values df song_search cfg)
    as [[tid ref] filtered] eqn:Hsel.
  destruct filtered as [[| first more] |].
  - rewrite !(update_audio_player_no_rows _ _ _ _ _ _ _ _ Hsel); auto.
  - assert (Hrows : first :: more <> []) by discriminate.
    rewrite !(update_audio_player_rows _ _ _ _ _ _ _ _ Hsel Hrows).
    cbn [Explorer.current_song_index].
    assert (Hn : (1 <= Explorer.len (first :: more))%Z).
    { unfold Explorer.len. simpl List.length. lia. }
    rewrite (clamp_fixed _ _ (clamp_range _ (Explorer.current_song_index st) Hn)).
    reflexivity.
  - rewrite !(update_audio_player_no_rows _ _ _ _ _ _ _ _ Hsel); auto.
Qed.

(** X19: on a state [update_audio_player] has settled, with a non-empty
    frame: Next moves one row forward unless at the last row, where it does
    nothing; Previous moves one row back unless at the first row, where it
    does nothing; and Previous undoes Next, Next undoes Previous. *)
Theorem prev_next_navigation (sort_values : list Scored -> list Scored)
    (df : list Song) (song_search : string) (cfg : Config)
    (st : Explorer.State) (rows : list Scored) :
  Explorer.update_audio_player sort_values df song_search cfg st = st ->
  Explorer.filtered_df st = Some rows ->
  rows <> [] ->
  let i := Explorer.current_song_index st in
  let n := Explorer.len rows in
  let next := Explorer.on_next_click sort_values df song_search cfg in
  let prev := Explorer.on_prev_click sort_values df song_search cfg in
  ((i < n - 1)%Z ->
   Explorer.current_song_index (next st) = (i + 1)%Z /\ prev (next st) = st)
  /\ ((0 < i)%Z ->
      Explorer.current_song_index (prev st) = (i - 1)%Z /\ next (prev st) = st)
  /\ (i = (n - 1)%Z -> next st = st)
  /\ (i = 0%Z -> prev st = st).
Proof.
  intros Hfix Hf Hrows. cbv zeta.
  destruct (Explorer.select sort_values df song_search cfg)
    as [[tid ref] filtered] eqn:Hsel.
  assert (Hfiltered : filtered = Some rows).
  { rewrite <- Hfix in Hf. destruct filtered as [[| first more] |].
    - rewrite (update_audio_player_no_rows _ _ _ _ _ _ _ st Hsel) in Hf;
        [exact Hf | now right].
    - rewrite (update_audio_player_rows _ _ _ _ _ _ _ st Hsel) in Hf;
        [exact Hf | discriminate].
    - rewrite (update_audio_player_no_rows _ _ _ _ _ _ _ st Hsel) in Hf;
        [exact Hf | now left]. }
  subst filtered.
  pose proof (fun st0 => update_audio_player_rows _ _ _ _ _ _ _ st0 Hsel Hrows)
    as Hval.
  assert (Hn : (1 <= Explorer.len rows)%Z).
  { apply len_pos in Hrows. unfold Explorer.len in *. lia. }
  assert (Hi : clamp (Explorer.len rows) (Explorer.current_song_index st)
               = Explorer.current_song_index st).
  { rewrite <- Hfix at 2. rewrite Hval. reflexivity. }
  pose proof (clamp_range (Explorer.len rows) (Explorer.current_song_index st) Hn)
    as Hrange.
  rewrite Hi in Hrange.
  set (i := Explorer.current_song_index st) in *.
  set (n := Explorer.len rows) in *.
  assert (Hst : st = Explorer.mkState i tid ref (Some rows)
                       (nth_error rows (Z.to_nat i)) (i =? 0)%Z (i >=? n - 1)%Z).
  { rewrite <- Hfix at 1. rewrite Hval. fold i n. rewrite Hi. reflexivity. }
  assert (Hnext : forall j,
             Explorer.on_next_click sort_values df song_search cfg
               (Explorer.mkState j tid ref (Some rows)
                  (nth_error rows (Z.to_nat j)) (j =? 0)%Z (j >=? n - 1)%Z)
             = Explorer.mkState
                 (clamp n (if (j <? n - 1)%Z then j + 1 else j)%Z) tid ref (Some rows)
                 (nth_error rows
                    (Z.to_nat (clamp n (if (j <? n - 1)%Z then j + 1 else j)%Z)))
                 (clamp n (if (j <? n - 1)%Z then j + 1 else j) =? 0)%Z
                 (clamp n (if (j <? n - 1)%Z then j + 1 else j) >=? n - 1)%Z).
  { intros j. unfold Explorer.on_next_click. rewrite Hval. reflexivity. }
  assert (Hprev : forall j,
             Explorer.on_prev_click sort_values df song_search cfg
               (Explorer.mkState j tid ref (Some rows)
                  (nth_error rows (Z.to_nat j)) (j =? 0)%Z (j >=? n - 1)%Z)
             = Explorer.mkState
                 (clamp n (if (j >? 0)%Z then j - 1 else j)%Z) tid ref (Some rows)
                 (nth_error rows
                    (Z.to_nat (clamp n (if (j >? 0)%Z then j - 1 else j)%Z)))
                 (clamp n (if (j >? 0)%Z then j - 1 else j) =? 0)%Z
                 (clamp n (if (j >? 0)%Z then j - 1 else j) >=? n - 1)%Z).
  { intros j. unfold Explorer.on_prev_click. rewrite Hval. reflexivity. }
  rewrite Hst. clear Hst Hfix Hf Hi Hval.
  split; [| split; [| split]].
  - intros Hlt. rewrite Hnext.
    replace (clamp n (if (i <? n - 1)%Z then (i + 1)%Z else i)) with (i + 1)%Z
      by (unfold clamp; split_comparisons; lia).
    split; [reflexivity |]. rewrite Hprev.
    replace (clamp n (if (i + 1 >? 0)%Z then (i + 1 - 1)%Z else (i + 1)%Z)) with i
      by (unfold clamp; split_comparisons; lia).
    reflexivity.
  - intros Hlt. rewrite Hprev.
    replace (clamp n (if (i >? 0)%Z then (i - 1)%Z else i)) with (i - 1)%Z
      by (unfold clamp; split_comparisons; lia).
    split; [reflexivity |]. rewrite Hnext.
    replace (clamp n (if (i - 1 <? n - 1)%Z then (i - 1 + 1)%Z else (i - 1)%Z)) with i
      by (unfold clamp; split_comparisons; lia).
    reflexivity.
  - intros Heq. rewrite Hnext.
    replace (clamp n (if (i <? n - 1)%Z then (i + 1)%Z else i)) with i
      by (unfold clamp; split_comparisons; lia).
    reflexivity.
  - intros Heq. rewrite Hprev.
    replace (clamp n (if (i >? 0)%Z then (i - 1)%Z else i)) with i
      by (unfold clamp; split_comparisons; lia).
    reflexivity.
Qed.

Lemma tie_songs_select :
  Explorer.select insertion_sort_desc tie_songs "Song - Band" default_config
  = (Some "ref",
     Some (mkSong (demo_track "ref" 120 2000) (Some "Song") (Some "Band")),
     Some [mkScored (demo_track "a" 120 2000) 0 1;
           mkScored (demo_track "b" 120 2000) 0 1]).
Proof.
  unfold Explorer.select.
  replace (get_track_id_from_search tie_songs (Some "Song - Band"))
    with (Some "ref") by reflexivity.
  cbv iota beta. simpl truthy. cbv iota.
  change (map track tie_songs) with tie_catalog.
  rewrite tie_catalog_stable. reflexivity.
Qed.

Lemma tie_state_settled :
  Explorer.update_audio_player insertion_sort_desc tie_songs "Song - Band"
    default_config tie_state = tie_state.
Proof.
  rewrite (update_audio_player_rows _ _ _ _ _ _ _ tie_state tie_songs_select);
    [reflexivity | discriminate].
Qed.

Lemma prev_next_navigation_witness :
  Explorer.on_prev_click insertion_sort_desc tie_songs "Song - Band" default_config
    (Explorer.on_next_click insertion_sort_desc tie_songs "Song - Band"
       default_config tie_state)
  = tie_state.
Proof.
  apply (prev_next_navigation insertion_sort_desc tie_songs "Song - Band"
           default_config tie_state
           [mkScored (demo_track "a" 120 2000) 0 1;
            mkScored (demo_track "b" 120 2000) 0 1]).
  - exact tie_state_settled.
  - reflexivity.
  - discriminate.
  - reflexivity.
Defined.

(** ** The key wheel *)

Lemma all_keys_NoDup : NoDup Explorer.all_keys.
Proof.
  unfold Explorer.all_keys. simpl.
  repeat (constructor; [simpl; intuition discriminate |]). constructor.
Qed.

Lemma valid_key_on_wheel (t : Track) :
  valid_key t -> exists label, full_key t = Some label /\ In label Explorer.all_keys.
Proof.
  unfold valid_key, full_key. generalize (key t), (mode t).
  intros k m [Hk [-> | ->]]; enum_pitch k;
    (eexists; split; [reflexivity | simpl; tauto]).
Qed.

Lemma indicator_sum (label : option string) (keys : list string) :
  NoDup keys ->
  list_sum (map (fun k => if cell_equals label k then 1 else 0)%nat keys)
  = match label with
    | Some l => if in_dec string_dec l keys then 1%nat else 0%nat
    | None => 0%nat
    end.
Proof.
  induction 1 as [| k keys Hk Hnd IH]; simpl.
  - destruct label; reflexivity.
  - rewrite IH. destruct label as [l |]; simpl; [| reflexivity].
    destruct (String.eqb l k) eqn:Heq.
    + apply String.eqb_eq in Heq. subst l.
      destruct (string_dec k k) as [Heq | Hne]; [| now elim Hne].
      destruct (in_dec string_dec k keys); [contradiction | reflexivity].
    + apply String.eqb_neq in Heq.
      destruct (string_dec k l) as [Hkl | Hkl]; [now elim Heq |].
      destruct (in_dec string_dec l keys); reflexivity.
Qed.

Lemma list_sum_map_add {A : Type} (f g : A -> nat) (l : list A) :
  list_sum (map (fun x => f x + g x)%nat l)
  = (list_sum (map f l) + list_sum (map g l))%nat.
Proof. induction l as [| a l IH]; simpl; [reflexivity | rewrite IH; lia]. Qed.

Lemma wheel_values_cons (r : Scored) (rows : list Scored) :
  list_sum (Explorer.wheel_values (r :: rows))
  = (list_sum (map (fun k => if cell_equals (full_key (row r)) k then 1 else 0)%nat
                   Explorer.all_keys)
     + list_sum (Explorer.wheel_values rows))%nat.
Proof.
  unfold Explorer.wheel_values. rewrite <- list_sum_map_add. f_equal.
  apply map_ext. intros k. unfold Explorer.key_count. simpl.
  destruct (cell_equals (full_key (row r)) k); reflexivity.
Qed.

(** X20: the key wheel has 24 bars; their total never exceeds the number of
    rows of the frame, and when every row has a valid key and mode each row
    is counted in exactly one bar, so the total is the number of rows. *)
Theorem wheel_counts_every_row (rows : list Scored) :
  List.length (Explorer.wheel_values rows) = 24%nat
  /\ (list_sum (Explorer.wheel_values rows) <= List.length rows)%nat
  /\ ((forall r, In r rows -> valid_key (row r)) ->
      list_sum (Explorer.wheel_values rows) = List.length rows).
Proof.
  split; [reflexivity |]. split.
  - induction rows as [| r rows IH]; [simpl; lia |].
    rewrite wheel_values_cons, (indicator_sum _ _ all_keys_NoDup). simpl List.length.
    destruct (full_key (row r)) as [l |]; [| lia].
    destruct (in_dec string_dec l Explorer.all_keys); lia.
  - induction rows as [| r rows IH]; intros Hvalid; [reflexivity |].
    rewrite wheel_values_cons, (indicator_sum _ _ all_keys_NoDup). simpl List.length.
    rewrite IH by (intros x Hx; apply Hvalid; now right).
    destruct (valid_key_on_wheel (row r) (Hvalid r (or_introl eq_refl)))
      as (l & -> & Hin).
    destruct (in_dec string_dec l Explorer.all_keys); [reflexivity | contradiction].
Qed.

Lemma wheel_counts_every_row_witness :
  list_sum (Explorer.wheel_values [mkScored (demo_track "a" 120 2000) 0 1;
                                   mkScored (demo_track "b" 120 2000) 0 1])
  = 2%nat.
Proof.
  apply (wheel_counts_every_row [mkScored (demo_track "a" 120 2000) 0 1;
                                 mkScored (demo_track "b" 120 2000) 0 1]).
  intros r [<- | [<- | []]]; unfold valid_key; simpl; repeat split; auto; lia.
Defined.
